(** * Frog visual-field model and Hopfield memory: a shallow embedding

    Sources embedded here:
    - [homework/tarea2_frog_visual/Tarea2_IBS.py]: [euler_method],
      [membrane_potential], [select_stimulus], [select_stimulus_no_winner],
      [hysteresis], [motor_scheme], [metodoEulerHisteresis];
    - [homework/tarea3_hopfield/Tarea3_IBS.py]: [train_hopfield],
      [hopfield_step_async], [recall_async].

    Number model.  The two integrators and the recall compute with Python
    [float]s, and what they return depends on how a quotient, a product
    or a sum is rounded.  Their code is therefore embedded over an
    interface of float operations, [PyFloat], which has two
    implementations here: [binary64], the IEEE 754 double precision
    arithmetic of CPython and numpy (Rocq's primitive floats), and
    [exact_float], the arithmetic of the rationals [Qc], without
    rounding.  A theorem stated for every [PyFloat] holds of the program
    as it runs; a theorem stated on [Qc] is about exact arithmetic, of
    which the program computes a rounding.  The selectors and the
    hysteresis selector only compare floats, and a comparison of finite
    floats is exact: they are embedded on [Qc], as are the motor scheme
    and the training, in exact arithmetic.

    Python [int] values are [Z]; the entries of an int64 ndarray are [Z]
    with the wrap-around of their products written out.  A raised
    exception is a value of [pyerr].  Console output ([print]) and
    plotting are left out. *)

From Stdlib Require Import QArith Qcanon Qround Qpower Floats.
From stdpp Require Import base numbers list gmap.

Local Open Scope Qc_scope.

(** ** Exceptions and results *)

(** [Dangling] is not a Python exception: it stands for a reference to no
    object, which Python rules out, and makes heap access total. *)
Inductive pyerr : Set :=
  | ZeroDivisionError
  | OverflowError
  | ValueError
  | IndexError
  | TypeError
  | Dangling.

Inductive result (A : Type) : Type :=
  | Ok (a : A)
  | Raise (e : pyerr).
Arguments Ok {A} a.
Arguments Raise {A} e.

#[global] Instance pyerr_eq_dec : EqDecision pyerr.
Proof. solve_decision. Defined.

#[global] Instance result_eq_dec {A : Type} `{EqDecision A} : EqDecision (result A).
Proof. solve_decision. Defined.

Definition result_bind {A B} (f : A → result B) (m : result A) : result B :=
  match m with
  | Ok a => f a
  | Raise e => Raise e
  end.

#[global] Instance result_ret : MRet result := λ A a, Ok a.
#[global] Instance result_mbind : MBind result := λ A B f m, result_bind f m.

(** ** Numbers *)

(** The rational [a / b], as a Python float literal such as [0.73]. *)
Definition frac (a : Z) (b : positive) : Qc := Q2Qc (a # b).

(** An [int] used where a float is expected. *)
Definition of_int (z : Z) : Qc := Qc_of_Z z.

(** [int(q)]: truncation toward zero. *)
Definition py_int (q : Qc) : Z := Z.quot (Qnum q) (Z.pos (Qden q)).

(** [a / b] on floats: division by zero raises. *)
Definition py_truediv (a b : Qc) : result Qc :=
  if decide (b = 0) then Raise ZeroDivisionError else Ok (a / b).

(** [range(n)]: empty when [n <= 0]. *)
Definition py_range (n : Z) : list nat := seq 0 (Z.to_nat n).

(** [for i in range(n): s = body i s]. *)
Definition for_range {S : Type} (n : Z) (body : nat → S → S) (s : S) : S :=
  foldl (λ acc i, body i acc) s (py_range n).

(** [floor] of a rational, as the specification words the step count. *)
Definition floor (q : Qc) : Z := Qfloor q.

(** ** Float arithmetic *)

(** What a float is worth: a rational, an infinity, or a NaN. *)
Inductive fvalue : Type :=
  | Finite (q : Qc)
  | Infinite
  | NotANumber.

#[global] Instance fvalue_eq_dec : EqDecision fvalue.
Proof. solve_decision. Defined.

(** The operations on floats that the integrators and the recall use:
    [a + b], [a - b], [a * b], [a / b] for a nonzero [b], [-a], [a > b],
    the conversion of an [int] operand, the worth of a float, and the
    float that [np.dot] returns for a float64 row and an int64 vector of
    the same length.  numpy does not fix the order in which [np.dot]
    adds the products; every order is an implementation of
    [float_dot]. *)
Class PyFloat (F : Type) : Type := {
  float_add : F → F → F;
  float_sub : F → F → F;
  float_mul : F → F → F;
  float_div : F → F → F;
  float_neg : F → F;
  float_gt : F → F → Prop;
  float_gt_dec :: RelDecision float_gt;
  float_of_int : Z → F;
  float_value : F → fvalue;
  float_dot : list F → list Z → F
}.

Infix "⊕" := float_add (at level 50, left associativity).
Infix "⊖" := float_sub (at level 50, left associativity).
Infix "⊗" := float_mul (at level 40, left associativity).
Infix "⊘" := float_div (at level 40, left associativity).

(** [a / b]: a zero divisor, of either sign, raises. *)
Definition float_truediv `{PyFloat F} (a b : F) : result F :=
  match float_value b with
  | Finite q => if decide (q = 0) then Raise ZeroDivisionError else Ok (a ⊘ b)
  | _ => Ok (a ⊘ b)
  end.

(** [int(a)]: truncation toward zero; an infinity raises [OverflowError]
    and a NaN raises [ValueError]. *)
Definition int_of_float `{PyFloat F} (a : F) : result Z :=
  match float_value a with
  | Finite q => Ok (py_int q)
  | Infinite => Raise OverflowError
  | NotANumber => Raise ValueError
  end.

(** The float literal for the decimal [a / b], such as [0.73]: the float
    nearest to it, which is the quotient of the two integers when both
    are floats. *)
Definition float_frac `{PyFloat F} (a : Z) (b : positive) : F :=
  float_of_int a ⊘ float_of_int (Z.pos b).

(** What the theorems below use of float arithmetic: multiplication
    commutes; [-1], [0] and [1] are floats; [>] is asymmetric; a float
    greater than zero is worth a positive number; and, for a positive
    [dt], the quotient [(tf - t0) / dt] is not negative unless
    [t0 > tf], and not positive unless [tf > t0]. *)
Class PyFloatLaws (F : Type) `{PyFloat F} : Prop := {
  float_mul_comm : ∀ a b : F, a ⊗ b = b ⊗ a;
  float_value_of_int : ∀ z : Z,
    (-1 ≤ z ≤ 1)%Z → float_value (float_of_int z) = Finite (of_int z);
  float_gt_asym : ∀ a b : F, float_gt a b → ¬ float_gt b a;
  float_value_positive : ∀ (a : F) (q : Qc),
    float_gt a (float_of_int 0) → float_value a = Finite q → 0 < q;
  float_quotient_nonneg : ∀ (t0 tf dt : F) (q : Qc),
    ¬ float_gt t0 tf → float_gt dt (float_of_int 0) →
    float_value ((tf ⊖ t0) ⊘ dt) = Finite q → 0 ≤ q;
  float_quotient_nonpos : ∀ (t0 tf dt : F) (q : Qc),
    ¬ float_gt tf t0 → float_gt dt (float_of_int 0) →
    float_value ((tf ⊖ t0) ⊘ dt) = Finite q → q ≤ 0
}.

(** *** Exact arithmetic *)

#[global] Instance exact_float : PyFloat Qc := {|
  float_add := Qcplus;
  float_sub := Qcminus;
  float_mul := Qcmult;
  float_div := Qcdiv;
  float_neg := Qcopp;
  float_gt a b := b < a;
  float_gt_dec a b := (_ : Decision (b < a));
  float_of_int := of_int;
  float_value := Finite;
  float_dot row xs := foldl Qcplus 0 (zip_with (λ w v, w * of_int v) row xs)
|}.

(** *** Binary64 arithmetic *)

(** The float nearest to the integer [z]. *)
Definition b64_of_int (z : Z) : float :=
  SF2Prim (binary_normalize prec emax z 0 false).

(** A finite float is [(-1)^s * m * 2^e]. *)
Definition b64_value (x : float) : fvalue :=
  match Prim2SF x with
  | S754_zero _ => Finite 0
  | S754_infinity _ => Infinite
  | S754_nan => NotANumber
  | S754_finite s m e =>
      Finite (Q2Qc (inject_Z (cond_Zopp s (Z.pos m)) * Qpower 2 e))
  end.

(** [x] is a zero, a NaN, or has the sign bit [s]. *)
Definition sf_has_sign (s : bool) (x : spec_float) : Prop :=
  match x with
  | S754_finite sx _ _ | S754_infinity sx => sx = s
  | _ => True
  end.

(** The dot product with the products added from left to right, one
    of the orders that [np.dot] may take. *)
Definition b64_dot (row : list float) (xs : list Z) : float :=
  foldl PrimFloat.add (b64_of_int 0)
    (zip_with (λ w v, PrimFloat.mul w (b64_of_int v)) row xs).

#[global] Instance binary64 : PyFloat float := {|
  float_add := PrimFloat.add;
  float_sub := PrimFloat.sub;
  float_mul := PrimFloat.mul;
  float_div := PrimFloat.div;
  float_neg := PrimFloat.opp;
  float_gt a b := PrimFloat.ltb b a = true;
  float_gt_dec a b := (_ : Decision (PrimFloat.ltb b a = true));
  float_of_int := b64_of_int;
  float_value := b64_value;
  float_dot := b64_dot
|}.

(** ** Tarea 2: the integrator *)

Module Tarea2.

(** A derivative function [f(y, t, I_ext)]. *)
Definition deriv (F : Type) : Type := F → F → F → F.

(** The local variables of [euler_method] that its loop updates. *)
Record euler_vars (F : Type) : Type := EulerVars {
  ev_y : F;
  ev_t : F;
  ev_ys : list F;
  ev_ts : list F
}.
Arguments EulerVars {F} _ _ _ _.
Arguments ev_y {F} _.
Arguments ev_t {F} _.
Arguments ev_ys {F} _.
Arguments ev_ts {F} _.

(** One pass through the body of the loop of [euler_method]. *)
Definition euler_body `{PyFloat F} (f : deriv F) (dt I_ext : F)
    (s : euler_vars F) : euler_vars F :=
  let y := ev_y s ⊕ f (ev_y s) (ev_t s) I_ext ⊗ dt in
  let t := ev_t s ⊕ dt in
  {| ev_y := y; ev_t := t; ev_ys := ev_ys s ++ [y]; ev_ts := ev_ts s ++ [t] |}.

(** [euler_method(f, y0, t0, tf, dt, I_ext)], returning [(ts, ys)]. *)
Definition euler_method `{PyFloat F} (f : deriv F) (y0 t0 tf dt I_ext : F)
  : result (list F * list F) :=
  q ← float_truediv (tf ⊖ t0) dt;
  n_steps ← int_of_float q;
  let s := for_range n_steps (λ _, euler_body f dt I_ext)
             {| ev_y := y0; ev_t := t0; ev_ys := [y0]; ev_ts := [t0] |} in
  Ok (ev_ts s, ev_ys s).

(** [membrane_potential] with its two local constants as parameters;
    [tau] is not zero there. *)
Definition membrane_potential_with `{PyFloat F} (tau v_rest : F) : deriv F :=
  λ v t I_ext, (float_neg (v ⊖ v_rest) ⊕ I_ext) ⊘ tau.

(** [membrane_potential(v, t, I_ext)]: [tau = 10], [v_rest = -65]. *)
Definition membrane_potential `{PyFloat F} : deriv F :=
  membrane_potential_with (float_of_int 10) (float_of_int (-65)).

(** *** Stimulus selection *)

(** [max(stimuli)]: the running maximum is replaced only by a strictly
    greater item; an empty argument raises [ValueError]. *)
Definition py_max (l : list Qc) : result Qc :=
  match l with
  | [] => Raise ValueError
  | x :: l' => Ok (foldl (λ m v, if decide (m < v) then v else m) x l')
  end.

(** [enumerate(l)]. *)
Definition enumerate {A : Type} (l : list A) : list (nat * A) :=
  zip (seq 0 (length l)) l.

(** [[i for i, val in enumerate(stimuli) if val == max_value]]. *)
Definition max_indices (stimuli : list Qc) (max_value : Qc) : list nat :=
  fst <$> filter (λ p, p.2 = max_value) (enumerate stimuli).

(** What the two selectors return: an [int], a [list] of them, or [None]. *)
Inductive selection : Set :=
  | Index (i : nat)
  | Indices (l : list nat)
  | NoSelection.

(** [l[0]]. *)
Definition first_item (l : list nat) : result nat :=
  match l !! 0%nat with
  | Some i => Ok i
  | None => Raise IndexError
  end.

Definition select_stimulus (stimuli : list Qc) : result selection :=
  max_value ← py_max stimuli;
  let mi := max_indices stimuli max_value in
  if decide (1 < length mi)%nat then Ok (Indices mi)
  else i ← first_item mi; Ok (Index i).

Definition select_stimulus_no_winner (stimuli : list Qc) : result selection :=
  max_value ← py_max stimuli;
  let mi := max_indices stimuli max_value in
  if decide (1 < length mi)%nat then Ok NoSelection
  else i ← first_item mi; Ok (Index i).

(** *** Hysteresis *)

Definition hysteresis (stimuli : list Qc) (previous_output threshold : Qc)
  : result Qc :=
  max_stimulus ← py_max stimuli;
  if decide (threshold < max_stimulus) then Ok max_stimulus
  else Ok previous_output.

(** *** Motor scheme *)

(** [(n - 1) / 2] for the [int] [n]. *)
Definition centre (n : nat) : Qc := of_int (Z.of_nat n - 1) / of_int 2.

(** [sum(l)] on floats: left to right from [0]. *)
Definition py_sum (l : list Qc) : Qc := foldl Qcplus 0 l.

(** The [if isinstance(selected_indices, list) ... else ...] of
    [motor_scheme]; [None - float] is a [TypeError]. *)
Definition motor_direction (selected : selection) (n : nat) : result Qc :=
  match selected with
  | Indices l =>
      py_truediv (py_sum ((λ i, of_int (Z.of_nat i) - centre n) <$> l))
                 (of_int (Z.of_nat (length l)))
  | Index i => Ok (of_int (Z.of_nat i) - centre n)
  | NoSelection => Raise TypeError
  end.

Definition motor_scheme (stimuli : list Qc) : result Qc :=
  selected_indices ← select_stimulus stimuli;
  let n := length stimuli in
  motor_direction selected_indices n.

(** *** The integrator with hysteresis *)

(** [potencialMembrana]: the same derivative under its second name. *)
Definition potencialMembrana `{PyFloat F} : deriv F :=
  λ voltaje tiempo corrienteExterna,
    (float_neg (voltaje ⊖ float_of_int (-65)) ⊕ corrienteExterna)
    ⊘ float_of_int 10.

(** The [if corrienteExterna > umbral ... else ...] of the loop of
    [metodoEulerHisteresis]: the new [(voltaje, voltajeAnterior)]. *)
Definition paso_histeresis `{PyFloat F} (funcion : deriv F)
    (voltaje tiempo corrienteExterna pasoTiempo umbral voltajeAnterior : F)
  : F * F :=
  if decide (float_gt corrienteExterna umbral) then
    let voltaje' := voltaje ⊕ funcion voltaje tiempo corrienteExterna ⊗ pasoTiempo in
    (voltaje', voltaje')
  else (voltajeAnterior, voltajeAnterior).

(** The local variables of [metodoEulerHisteresis] that its loop updates. *)
Record histeresis_vars (F : Type) : Type := HisteresisVars {
  hv_voltaje : F;
  hv_tiempo : F;
  hv_voltajeAnterior : F;
  hv_voltajes : list F;
  hv_tiempos : list F
}.
Arguments HisteresisVars {F} _ _ _ _ _.
Arguments hv_voltaje {F} _.
Arguments hv_tiempo {F} _.
Arguments hv_voltajeAnterior {F} _.
Arguments hv_voltajes {F} _.
Arguments hv_tiempos {F} _.

(** [estimulos[i] * 10 if i < len(estimulos) else 0]. *)
Definition corriente `{PyFloat F} (estimulos : list F) (i : nat) : F :=
  if decide (i < length estimulos)%nat
  then default (float_of_int 0) (estimulos !! i) ⊗ float_of_int 10
  else float_of_int 0.

Definition histeresis_body `{PyFloat F} (funcion : deriv F) (pasoTiempo : F)
    (estimulos : list F) (umbral : F) (i : nat) (s : histeresis_vars F)
  : histeresis_vars F :=
  let corrienteExterna := corriente estimulos i in
  let '(voltaje, voltajeAnterior) :=
    paso_histeresis funcion (hv_voltaje s) (hv_tiempo s) corrienteExterna
                    pasoTiempo umbral (hv_voltajeAnterior s) in
  let tiempo := hv_tiempo s ⊕ pasoTiempo in
  {| hv_voltaje := voltaje; hv_tiempo := tiempo;
     hv_voltajeAnterior := voltajeAnterior;
     hv_voltajes := hv_voltajes s ++ [voltaje];
     hv_tiempos := hv_tiempos s ++ [tiempo] |}.

Definition metodoEulerHisteresis `{PyFloat F} (funcion : deriv F)
    (voltajeInicial tiempoInicial tiempoFinal pasoTiempo : F)
    (estimulos : list F) (umbral voltajeAnterior : F)
  : result (list F * list F) :=
  q ← float_truediv (tiempoFinal ⊖ tiempoInicial) pasoTiempo;
  numeroPasos ← int_of_float q;
  let s := for_range numeroPasos
             (histeresis_body funcion pasoTiempo estimulos umbral)
             {| hv_voltaje := voltajeInicial; hv_tiempo := tiempoInicial;
                hv_voltajeAnterior := voltajeAnterior;
                hv_voltajes := [voltajeInicial];
                hv_tiempos := [tiempoInicial] |} in
  Ok (hv_tiempos s, hv_voltajes s).

(** *** The stimuli of the simulations *)

Definition decimals (l : list Z) : list Qc := (λ z, frac z 100) <$> l.

(** [[0.1, 0.5, 0.8, 0.6, 0.2, 0.7, 0.4, 0.3, 0.9, 0.2]]. *)
Definition stimuli_1 : list Qc := decimals [10; 50; 80; 60; 20; 70; 40; 30; 90; 20]%Z.

(** [[0.1, 0.5, 0.8, 0.9, 0.2, 0.7, 0.4, 0.3, 0.9, 0.2]]. *)
Definition stimuli_2 : list Qc := decimals [10; 50; 80; 90; 20; 70; 40; 30; 90; 20]%Z.

(** [[0.1, 0.5, 0.73, 0.4, 0.6, 0.44, 0.2, 0.62, 0.3, 0.5]]. *)
Definition stimuli_4 : list Qc := decimals [10; 50; 73; 40; 60; 44; 20; 62; 30; 50]%Z.

Definition previous_output : Qc := frac 7 10.
Definition threshold : Qc := frac 75 100.

End Tarea2.

(** ** Tarea 3: the Hopfield memory *)

Module Tarea3.

(** A 2-D int64 ndarray: [shape[1]] and the rows.  numpy keeps every row
    at length [shape[1]]: [wf_ndarray2]. *)
Record ndarray2 : Type := Ndarray2 {
  shape1 : nat;
  rows : list (list Z)
}.

Definition wf_ndarray2 (a : ndarray2) : Prop :=
  Forall (λ r, length r = shape1 a) (rows a).

(** A 2-D float64 ndarray, by rows. *)
Abbreviation matrix := (list (list Qc)).

(** int64 arithmetic wraps around. *)
Definition wrap64 (z : Z) : Z := ((z + 2 ^ 63) `mod` 2 ^ 64 - 2 ^ 63)%Z.

(** [np.outer(a, b)] on int64 vectors. *)
Definition np_outer (a b : list Z) : list (list Z) :=
  (λ x, (λ y, wrap64 (x * y)) <$> b) <$> a.

(** [np.zeros((r, c))]. *)
Definition np_zeros (r c : nat) : matrix := replicate r (replicate c 0).

(** [W += M] for a float [W] and an int [M] of the same shape. *)
Definition iadd (W : matrix) (M : list (list Z)) : matrix :=
  zip_with (zip_with (λ w m, w + of_int m)) W M.

(** [W /= n].  numpy does not raise on [n = 0]; [W] has no entry then, as
    [n] is its dimension. *)
Definition idiv (W : matrix) (n : nat) : matrix :=
  (λ row : list Qc, (λ w, w / of_int (Z.of_nat n)) <$> row) <$> W.

(** [np.fill_diagonal(W, v)]. *)
Definition fill_diagonal (W : matrix) (v : Qc) : matrix :=
  imap (λ i row, <[i := v]> row) W.

(** [W * c]. *)
Definition scale (W : matrix) (c : Qc) : matrix :=
  (λ row : list Qc, (λ w, w * c) <$> row) <$> W.

Definition train_hopfield (patterns : ndarray2) (normalization_factor : Qc)
  : matrix :=
  let num_neurons := shape1 patterns in
  let W := np_zeros num_neurons num_neurons in
  let W := foldl (λ W p, iadd W (np_outer p p)) W (rows patterns) in
  let W := idiv W num_neurons in
  let W := fill_diagonal W 0 in
  scale W normalization_factor.

(** *** The heap of 1-D int64 ndarrays *)

Abbreviation ref := positive.
Abbreviation heap := (gmap positive (list Z)).

(** A computation that reads and writes the heap and may raise; the heap
    at the raise is kept. *)
Definition py (A : Type) : Type := heap → result A * heap.

#[global] Instance py_ret : MRet py := λ A a h, (Ok a, h).
#[global] Instance py_mbind : MBind py := λ A B f m h,
  match m h with
  | (Ok a, h') => f a h'
  | (Raise e, h') => (Raise e, h')
  end.

Definition lift {A : Type} (r : result A) : py A := λ h, (r, h).

Definition load (x : ref) : py (list Z) := λ h,
  match h !! x with
  | Some xs => (Ok xs, h)
  | None => (Raise Dangling, h)
  end.

(** [len(x)]. *)
Definition py_len (x : ref) : py nat := xs ← load x; mret (length xs).

(** [x[i] = v], in place. *)
Definition setitem (x : ref) (i : nat) (v : Z) : py unit := λ h,
  match h !! x with
  | Some xs =>
      if decide (i < length xs)%nat then (Ok (), <[x := <[i := v]> xs]> h)
      else (Raise IndexError, h)
  | None => (Raise Dangling, h)
  end.

(** [x.copy()]: a new array with the same entries. *)
Definition ndarray_copy (x : ref) : py ref := λ h,
  match h !! x with
  | Some xs => let r := fresh (dom h) in (Ok r, <[r := xs]> h)
  | None => (Raise Dangling, h)
  end.

(** [W[i]]. *)
Definition getrow {F : Type} (W : list (list F)) (i : nat) : result (list F) :=
  match W !! i with
  | Some row => Ok row
  | None => Raise IndexError
  end.

(** [for i in l: s = body(i, s)]. *)
Fixpoint py_for {S : Type} (l : list nat) (body : nat → S → py S) (s : S)
  : py S :=
  match l with
  | [] => mret s
  | i :: l' => s' ← body i s; py_for l' body s'
  end.

(** The float that [np.dot] computes on equal lengths. *)
Definition dot `{PyFloat F} (row : list F) (xs : list Z) : F :=
  float_dot row xs.

(** [np.dot(row, xs)] on 1-D arrays: unequal lengths raise. *)
Definition np_dot `{PyFloat F} (row : list F) (xs : list Z) : result F :=
  if decide (length row = length xs) then Ok (dot row xs)
  else Raise ValueError.

(** [np.sign], on a float that is not a NaN. *)
Definition np_sign `{PyFloat F} (q : F) : F :=
  if decide (float_gt q (float_of_int 0)) then float_of_int 1
  else if decide (float_gt (float_of_int 0) q) then float_of_int (-1)
  else float_of_int 0.

(** [x[i] = np.sign(np.dot(W[i], x))], the body of the loop of
    [hopfield_step_async].  The float sign is converted to an integer
    and stored into the int array [x]. *)
Definition neuron_update `{PyFloat F} (x : ref) (W : list (list F)) (i : nat)
  : py unit :=
  row ← lift (getrow W i);
  xs ← load x;
  d ← lift (np_dot row xs);
  v ← lift (int_of_float (np_sign d));
  setitem x i v.

(** [hopfield_step_async(x, W)]: [x] is updated in place and returned. *)
Definition hopfield_step_async `{PyFloat F} (x : ref) (W : list (list F))
  : py ref :=
  n ← py_len x;
  _ ← py_for (py_range (Z.of_nat n)) (λ i _, neuron_update x W i) ();
  mret x.

Definition recall_async `{PyFloat F} (pattern : ref) (W : list (list F))
    (steps : Z) : py ref :=
  x ← ndarray_copy pattern;
  x ← py_for (py_range steps) (λ _ x, hopfield_step_async x W) x;
  mret x.

End Tarea3.

(** ** What the specification says, in its own words *)

Module Spec.
Import Tarea2 Tarea3.

(** The [k]-th value and time of the explicit forward update:
    [value[k+1] = value[k] + step_size * derivative_fn(value[k], t[k], input)],
    [t[k+1] = t[k] + step_size]. *)
Fixpoint euler_point `{PyFloat F} (f : deriv F) (step_size input : F)
    (initial t_start : F) (k : nat) : F * F :=
  match k with
  | O => (initial, t_start)
  | S k' =>
      let '(v, t) := euler_point f step_size input initial t_start k' in
      (v ⊕ step_size ⊗ f v t input, t ⊕ step_size)
  end.

(** The values and the times of a run of [n] steps. *)
Definition euler_values `{PyFloat F} (f : deriv F) (step_size input : F)
    (initial t_start : F) (n : nat) : list F :=
  (λ k, (euler_point f step_size input initial t_start k).1) <$> seq 0 (S n).

Definition euler_times `{PyFloat F} (f : deriv F) (step_size input : F)
    (initial t_start : F) (n : nat) : list F :=
  (λ k, (euler_point f step_size input initial t_start k).2) <$> seq 0 (S n).

(** A step configuration that the specification wants rejected. *)
Definition invalid_step_config (t_start t_end step_size : Qc) : Prop :=
  step_size ≤ 0 ∨ t_end < t_start.

(** A call is rejected when it raises. *)
Definition rejected {A : Type} (r : result A) : Prop := ∃ e, r = Raise e.


(** The index [i] holds a value that no entry of [stimuli] exceeds. *)
Definition attains_max (stimuli : list Qc) (i : nat) : Prop :=
  match stimuli !! i with
  | Some v => Forall (λ w, w ≤ v) stimuli
  | None => False
  end.

#[global] Instance attains_max_dec stimuli i : Decision (attains_max stimuli i).
Proof. unfold attains_max. destruct (stimuli !! i); apply _. Defined.

(** All the indices attaining the maximum, in ascending order. *)
Definition maximisers (stimuli : list Qc) : list nat :=
  filter (attains_max stimuli) (seq 0 (length stimuli)).

(** [m] is the maximum of [stimuli]. *)
Definition is_maximum (stimuli : list Qc) (m : Qc) : Prop :=
  m ∈ stimuli ∧ Forall (λ w, w ≤ m) stimuli.

(** The average of a list of numbers. *)
Definition average (l : list Qc) : Qc :=
  foldr Qcplus 0 l / of_int (Z.of_nat (length l)).

(** [i - (n-1)/2]. *)
Definition offset_from_centre (n : nat) (i : nat) : Qc :=
  of_int (Z.of_nat i) - (of_int (Z.of_nat n) - 1) / (1 + 1).

(** A bipolar pattern: every entry is [+1] or [-1]. *)
Definition bipolar (p : list Z) : Prop := Forall (λ v, v = 1%Z ∨ v = (-1)%Z) p.

(** The matrix of dimension [L] with entry [f i j] at row [i], column [j]. *)
Definition tabulate (L : nat) (f : nat → nat → Qc) : matrix :=
  (λ i, (λ j, f i j) <$> seq 0 L) <$> seq 0 L.

(** [W[i][j]]. *)
Definition entry (W : matrix) (i j : nat) : option Qc :=
  row ← W !! i; row !! j.

(** Entry [(i, j)] of the sum of the outer products [outer_product(p, p)]. *)
Definition outer_sum (patterns : list (list Z)) (i j : nat) : Qc :=
  foldr Qcplus 0 ((λ p : list Z, of_int (p !!! i * p !!! j)) <$> patterns).

(** Entry [(i, j)] as the specification trains it: the sum of the outer
    products, divided by [L], zeroed on the diagonal, then scaled. *)
Definition trained_entry (patterns : list (list Z)) (L : nat)
    (normalization_factor : Qc) (i j : nat) : Qc :=
  (if decide (i = j) then 0
   else outer_sum patterns i j / of_int (Z.of_nat L)) * normalization_factor.

(** [sign], with the reference convention [sign(0) = 0]. *)
Definition sign `{PyFloat F} (q : F) : Z :=
  if decide (float_gt q (float_of_int 0)) then 1%Z
  else if decide (float_gt (float_of_int 0) q) then (-1)%Z else 0%Z.

(** The new state of neuron [i] when the network is in state [x]. *)
Definition neuron `{PyFloat F} (W : list (list F)) (i : nat) (x : list Z) : Z :=
  sign (dot (W !!! i) x).

(** One asynchronous sweep on a single buffer: [done] holds the neurons
    already updated in this sweep, [todo] the ones still at their old
    value; the next neuron sees both. *)
Fixpoint sweep_from `{PyFloat F} (W : list (list F)) (done todo : list Z)
  : list Z :=
  match todo with
  | [] => done
  | _ :: rest =>
      sweep_from W (done ++ [neuron W (length done) (done ++ todo)]) rest
  end.

Definition sweep `{PyFloat F} (W : list (list F)) (x : list Z) : list Z :=
  sweep_from W [] x.

(** A double-buffered sweep, where every neuron sees the state at the
    start of the sweep: what the code does not do. *)
Definition sweep_synchronous `{PyFloat F} (W : list (list F)) (x : list Z)
  : list Z :=
  imap (λ i _, neuron W i x) x.

(** A computation that writes to no array but [x]. *)
Definition writes_only {A : Type} (x : ref) (m : py A) : Prop :=
  ∀ (h : heap) (l : ref), l ≠ x → (m h).2 !! l = h !! l.

(** A computation that returns [x] whenever it returns. *)
Definition returns (x : ref) (m : py ref) : Prop :=
  ∀ (h : heap) (a : ref), (m h).1 = Ok a → a = x.

End Spec.

(** ** Small networks and runs, for examples *)

Module Demo.
Import Tarea2 Tarea3.

(** Two bipolar patterns of three neurons. *)
Definition patterns : ndarray2 := Ndarray2 3 [[1; -1; 1]; [1; 1; -1]]%Z.

(** [train_hopfield(patterns)], with the default factor [0.05]. *)
Definition W : matrix := train_hopfield patterns (frac 5 100).

(** The first pattern as a query, held by the caller at reference [1]. *)
Definition query : list Z := [1; -1; 1]%Z.
Definition caller_heap : heap := {[ 1%positive := query ]}.

(** A matrix that couples two neurons, and a state for it. *)
Definition W_pair : matrix := [[0; 1]; [1; 0]].
Definition x_pair : list Z := [1; -1]%Z.

(** The same matrix in binary64. *)
Definition W_pair64 : list (list float) :=
  [[float_of_int 0; float_of_int 1]; [float_of_int 1; float_of_int 0]].

(** Float literals of the runs below, in binary64. *)
Definition f0_1 : float := float_frac 1 10.
Definition f0_3 : float := float_frac 3 10.
Definition f0_5 : float := float_frac 1 2.
Definition f0_07 : float := float_frac 7 100.
Definition f0_7 : float := float_frac 7 10.

(** The least positive float, [5e-324]. *)
Definition f5e_324 : float := 0x1p-1074%float.

(** [1e-17] and [1e-16]. *)
Definition f1e_17 : float := float_frac 1 100000000000000000.
Definition f1e_16 : float := float_frac 1 10000000000000000.

End Demo.

(** ** Notions used to describe the rest of the code *)

Module Derived.
Import Tarea2 Tarea3.

(** [int((tf - t0) / dt)], which both integrators evaluate before
    anything else. *)
Definition step_count `{PyFloat F} (t0 tf dt : F) : result Z :=
  q ← float_truediv (tf ⊖ t0) dt; int_of_float q.

(** The value at which [membrane_potential] vanishes: [v_rest + I_ext]. *)
Definition equilibrium (I_ext : Qc) : Qc := of_int (-65) + I_ext.

(** [(voltaje, tiempo, voltajeAnterior)] after [k] passes of the loop of
    [metodoEulerHisteresis]. *)
Fixpoint histeresis_point `{PyFloat F} (funcion : deriv F) (pasoTiempo : F)
    (estimulos : list F) (umbral : F) (v0 t0 anterior : F) (k : nat)
  : F * F * F :=
  match k with
  | O => (v0, t0, anterior)
  | S k' =>
      let p := histeresis_point funcion pasoTiempo estimulos umbral v0 t0 anterior k' in
      let r := paso_histeresis funcion p.1.1 p.1.2 (corriente estimulos k')
                 pasoTiempo umbral p.2 in
      (r.1, p.1.2 ⊕ pasoTiempo, r.2)
  end.

(** What [select_stimulus_no_winner] makes of a result of
    [select_stimulus]. *)
Definition reject_ties (sel : selection) : selection :=
  match sel with
  | Indices _ => NoSelection
  | _ => sel
  end.


End Derived.

(** * Properties *)

Import Tarea2 Tarea3 Spec.
Import Derived.

(** ** Numbers *)

Lemma py_truediv_nonzero (a b : Qc) : b ≠ 0 → py_truediv a b = Ok (a / b).
Proof. intros Hb. unfold py_truediv. by rewrite decide_False. Qed.

Lemma py_int_floor (q : Qc) : 0 ≤ q → py_int q = floor q.
Proof.
  destruct q as [[n d] Hc]. unfold py_int, floor, Qcle, Qle; simpl.
  intros Hn. apply Z.quot_div_nonneg; lia.
Qed.

Lemma py_int_nonpos (q : Qc) : q ≤ 0 → (py_int q ≤ 0)%Z.
Proof.
  destruct q as [[n d] Hc]. unfold py_int, Qcle, Qle; simpl.
  intros Hn. pose proof (Z.quot_opp_l n (Z.pos d) ltac:(lia)) as Ho.
  assert (0 ≤ (- n) ÷ Z.pos d)%Z by (apply Z.quot_pos; lia). lia.
Qed.

Lemma Qcdiv_nonneg (a b : Qc) : 0 ≤ a → 0 < b → 0 ≤ a / b.
Proof.
  intros Ha Hb. unfold Qcdiv.
  apply Qcmult_nonneg_nonneg; [done|]. by apply Qclt_le_weak, Qcinv_pos.
Qed.

Lemma Qcle_0_minus (a b : Qc) : a ≤ b → 0 ≤ b - a.
Proof. intros H. apply Qcle_minus_iff in H. exact H. Qed.

Lemma Qcdiv_nonpos (a b : Qc) : a ≤ 0 → 0 < b → a / b ≤ 0.
Proof.
  intros Ha Hb. unfold Qcdiv. rewrite <-(Qcmult_0_l (/ b)).
  apply Qcmult_le_compat_r; [done|]. by apply Qclt_le_weak, Qcinv_pos.
Qed.

Lemma Qcle_minus_0 (a b : Qc) : a ≤ b → a - b ≤ 0.
Proof.
  intros H. apply Qcle_minus_iff.
  replace (0 + - (a - b)) with (b + - a) by ring.
  by apply Qcle_minus_iff in H.
Qed.

(** ** Float arithmetic *)

(** Reading the operations of [exact_float] as those of [Qc]. *)
Ltac exact_arith :=
  cbn [float_add float_sub float_mul float_div float_neg float_gt
       float_gt_dec float_of_int float_value float_dot exact_float] in *.

#[global] Instance exact_float_laws : PyFloatLaws Qc.
Proof.
  split.
  - apply Qcmult_comm.
  - done.
  - intros a b Hab Hba. exact_arith.
    by apply (Qclt_not_le _ _ Hab), Qclt_le_weak.
  - intros a q Ha [= <-]. exact Ha.
  - intros t0 tf dt q Hle Hdt [= <-]. exact_arith.
    apply Qcdiv_nonneg; [|exact Hdt]. by apply Qcle_0_minus, Qcnot_lt_le.
  - intros t0 tf dt q Hle Hdt [= <-]. exact_arith.
    apply Qcdiv_nonpos; [|exact Hdt]. by apply Qcle_minus_0, Qcnot_lt_le.
Qed.

(** *** Binary64 arithmetic *)

(** The sign of a quotient of a difference, from the specification of
    the primitive floats. *)

Lemma digits2_pos_bounds (m : positive) :
  (2 ^ (Z.pos (digits2_pos m) - 1) ≤ Z.pos m < 2 ^ Z.pos (digits2_pos m))%Z.
Proof.
  induction m as [m IH|m IH|]; cbn [digits2_pos]; [| |done].
  - rewrite Pos2Z.inj_succ.
    replace (Z.succ (Z.pos (digits2_pos m)) - 1)%Z
      with (Z.succ (Z.pos (digits2_pos m) - 1)) by lia.
    rewrite !Z.pow_succ_r by lia. lia.
  - rewrite Pos2Z.inj_succ.
    replace (Z.succ (Z.pos (digits2_pos m)) - 1)%Z
      with (Z.succ (Z.pos (digits2_pos m) - 1)) by lia.
    rewrite !Z.pow_succ_r by lia. lia.
Qed.

Lemma iter_xO (m d : positive) :
  Z.pos (Pos.iter xO m d) = (Z.pos m * 2 ^ Z.pos d)%Z.
Proof.
  induction d as [|d IH] using Pos.peano_ind.
  - cbn [Pos.iter]. rewrite Z.pow_1_r. lia.
  - rewrite Pos.iter_succ, Pos2Z.inj_succ, Z.pow_succ_r by lia.
    rewrite Pos2Z.inj_xO, IH. lia.
Qed.

Lemma shl_align_fst (mx : positive) (ex ez : Z) :
  (ez ≤ ex)%Z → Z.pos (shl_align mx ex ez).1 = (Z.pos mx * 2 ^ (ex - ez))%Z.
Proof.
  intros Hle. unfold shl_align.
  destruct (ez - ex)%Z as [|d|d] eqn:Hd; cbn [fst].
  - replace (ex - ez)%Z with 0%Z by lia. lia.
  - lia.
  - rewrite iter_xO. f_equal. f_equal. lia.
Qed.

Lemma bounded_digits (m : positive) (e : Z) :
  bounded prec emax m e = true →
  (Z.pos (digits2_pos m) ≤ 53 ∧ -1074 ≤ e
   ∧ (-1074 < e → Z.pos (digits2_pos m) = 53))%Z.
Proof.
  unfold bounded, canonical_mantissa, fexp, SpecFloat.emin, prec, emax.
  intros [Hc _]%andb_prop. apply Z.eqb_eq in Hc. lia.
Qed.

(** Of two floats of the same sign, the one with the larger exponent
    has the larger magnitude. *)
Lemma canonical_order (m1 m2 : positive) (e1 e2 : Z) :
  bounded prec emax m1 e1 = true → bounded prec emax m2 e2 = true →
  (e1 < e2)%Z → (Z.pos m1 < Z.pos m2 * 2 ^ (e2 - e1))%Z.
Proof.
  intros (Hd1 & He1 & _)%bounded_digits (_ & _ & Hd2)%bounded_digits Hlt.
  pose proof (digits2_pos_bounds m1) as [_ Hm1].
  pose proof (digits2_pos_bounds m2) as [Hm2 _].
  rewrite Hd2 in Hm2 by lia.
  assert (Z.pos m1 < 2 ^ 53)%Z as H1.
  { eapply Z.lt_le_trans; [exact Hm1|]. apply Z.pow_le_mono_r; lia. }
  assert (2 ^ 1 ≤ 2 ^ (e2 - e1))%Z as H2 by (apply Z.pow_le_mono_r; lia).
  change (2 ^ (53 - 1))%Z with 4503599627370496%Z in Hm2.
  change (2 ^ 53)%Z with 9007199254740992%Z in H1.
  change (2 ^ 1)%Z with 2%Z in H2. nia.
Qed.

Lemma binary_round_aux_sign (s : bool) (m e : Z) (l : location) :
  sf_has_sign s (binary_round_aux prec emax s m e l).
Proof.
  unfold binary_round_aux.
  destruct (shr_fexp prec emax m e l) as [mrs' e'].
  destruct (shr_fexp prec emax _ e' loc_Exact) as [mrs'' e''].
  destruct (shr_m mrs''); [done| |done].
  by destruct (e'' <=? emax - prec)%Z.
Qed.

Lemma binary_normalize_sign (s : bool) (d e : Z) :
  (if s then d ≤ 0 else 0 ≤ d)%Z →
  sf_has_sign s (binary_normalize prec emax d e false).
Proof.
  intros Hd. unfold binary_normalize, binary_round.
  destruct d as [|p|p]; [done| |].
  - destruct s; [lia|].
    destruct (shl_align p e _) as [mz ez]. apply binary_round_aux_sign.
  - destruct s; [|lia].
    destruct (shl_align p e _) as [mz ez]. apply binary_round_aux_sign.
Qed.

(** The sign of a difference: [x - y] is not negative when [x < y]
    fails, and not positive when [y < x] fails. *)
Lemma SFsub_sign (s : bool) (x y : spec_float) :
  valid_binary x = true → valid_binary y = true →
  (if s then SFltb y x = false else SFltb x y = false) →
  sf_has_sign s (SF64sub x y).
Proof.
  intros Hx Hy Hcmp.
  destruct x as [sx|sx| |sx mx ex], y as [sy|sy| |sy my ey];
    try (by cbn in *; repeat match goal with b : bool |- _ => destruct b end).
  unfold SF64sub, SFsub. apply binary_normalize_sign.
  cbn [SpecFloat.valid_binary] in Hx, Hy.
  rewrite !shl_align_fst by lia.
  unfold SFltb, SFcompare in Hcmp.
  rewrite !Pos.compare_cont_spec in Hcmp. cbn [Pos.switch_Eq] in Hcmp.
  assert (0 < 2 ^ (ex - ex `min` ey))%Z by (apply Z.pow_pos_nonneg; lia).
  assert (0 < 2 ^ (ey - ex `min` ey))%Z by (apply Z.pow_pos_nonneg; lia).
  destruct (Z.compare_spec ex ey) as [->|Hlt|Hgt].
  - rewrite Z.min_id, Z.sub_diag in *. change (2 ^ 0)%Z with 1%Z.
    rewrite Z.compare_refl in Hcmp.
    rewrite (Pos.compare_antisym mx my) in Hcmp.
    destruct (Pos.compare_spec mx my) as [Heq|Hm|Hm];
      destruct s, sx, sy; cbn in Hcmp |- *; try discriminate; try lia.
  - pose proof (canonical_order mx my ex ey Hx Hy Hlt) as Hord.
    rewrite (proj2 (Z.compare_gt_iff ey ex)) in Hcmp by lia.
    rewrite Z.min_l, Z.sub_diag in * by lia. change (2 ^ 0)%Z with 1%Z.
    destruct s, sx, sy; cbn in Hcmp |- *; try discriminate; try lia.
  - pose proof (canonical_order my mx ey ex Hy Hx ltac:(lia)) as Hord.
    rewrite (proj2 (Z.compare_lt_iff ey ex)) in Hcmp by lia.
    rewrite Z.min_r, Z.sub_diag in * by lia. change (2 ^ 0)%Z with 1%Z.
    destruct s, sx, sy; cbn in Hcmp |- *; try discriminate; try lia.
Qed.

Lemma SFdiv_sign (s : bool) (a d : spec_float) :
  sf_has_sign s a → SFltb (S754_zero false) d = true →
  sf_has_sign s (SF64div a d).
Proof.
  intros Ha Hd.
  destruct d as [sd|sd| |sd md ed]; try done; destruct sd; try done;
    destruct a as [sa|sa| |sa ma ea]; try done; cbn in Ha; subst;
    cbn [SF64div SFdiv xorb]; rewrite ?xorb_false_r; try done.
  destruct (SFdiv_core_binary _ _ _ _ _ _) as [[mz ez] lz].
  apply binary_round_aux_sign.
Qed.

Lemma Q2Qc_nonneg (q : Q) : (0 <= q)%Q → 0 ≤ Q2Qc q.
Proof.
  intros Hq. unfold Qcle. cbn [this Q2Qc]. rewrite !Qred_correct. exact Hq.
Qed.

Lemma Q2Qc_nonpos (q : Q) : (q <= 0)%Q → Q2Qc q ≤ 0.
Proof.
  intros Hq. unfold Qcle. cbn [this Q2Qc]. rewrite !Qred_correct. exact Hq.
Qed.

Lemma Q2Qc_pos (q : Q) : (0 < q)%Q → 0 < Q2Qc q.
Proof.
  intros Hq. unfold Qclt. cbn [this Q2Qc]. rewrite !Qred_correct. exact Hq.
Qed.

Lemma Qpower_2_pos (e : Z) : (0 < Qpower 2 e)%Q.
Proof. by apply Qpower_0_lt. Qed.

Lemma b64_value_sign (s : bool) (x : float) (q : Qc) :
  sf_has_sign s (Prim2SF x) → b64_value x = Finite q →
  if s then q ≤ 0 else 0 ≤ q.
Proof.
  unfold b64_value. destruct (Prim2SF x) as [sx|sx| |sx m e]; try done.
  - intros _ [= <-]. by destruct s.
  - cbn [sf_has_sign]. intros -> [= <-].
    pose proof (Qpower_2_pos e) as Hp. destruct s; cbn [cond_Zopp].
    + apply Q2Qc_nonpos.
      apply Qle_trans with (0 * 2 ^ e)%Q; [|by rewrite Qmult_0_l].
      apply Qmult_le_compat_r; [done|by apply Qlt_le_weak].
    + apply Q2Qc_nonneg. apply Qmult_le_0_compat; [done|]. by apply Qlt_le_weak.
Qed.

(** A float greater than zero is worth a positive rational, or is the
    positive infinity. *)
Lemma b64_value_positive (x : float) (q : Qc) :
  PrimFloat.ltb (b64_of_int 0) x = true → b64_value x = Finite q → 0 < q.
Proof.
  rewrite ltb_spec. change (Prim2SF (b64_of_int 0)) with (S754_zero false).
  unfold b64_value. destruct (Prim2SF x) as [sx|sx| |sx m e]; try done.
  destruct sx; [done|]. intros _ [= <-]. cbn [cond_Zopp].
  apply Q2Qc_pos. apply Qmult_lt_0_compat; [done|apply Qpower_2_pos].
Qed.

Lemma SFltb_asym (x y : spec_float) : SFltb x y = true → SFltb y x = false.
Proof.
  unfold SFltb, SFcompare.
  destruct x as [sx|sx| |sx mx ex], y as [sy|sy| |sy my ey];
    try (by repeat match goal with b : bool |- _ => destruct b end).
  rewrite !Pos.compare_cont_spec. cbn [Pos.switch_Eq].
  rewrite (Z.compare_antisym ex ey), (Pos.compare_antisym mx my).
  by destruct sx, sy, (ex ?= ey)%Z, (mx ?= my)%positive.
Qed.

Lemma b64_quotient_sign (s : bool) (t0 tf dt : float) (q : Qc) :
  (if s then PrimFloat.ltb t0 tf = false else PrimFloat.ltb tf t0 = false) →
  PrimFloat.ltb (b64_of_int 0) dt = true →
  b64_value (PrimFloat.div (PrimFloat.sub tf t0) dt) = Finite q →
  if s then q ≤ 0 else 0 ≤ q.
Proof.
  intros Hcmp Hdt. apply b64_value_sign.
  rewrite div_spec, sub_spec. apply SFdiv_sign.
  - apply SFsub_sign; [apply Prim2SF_valid|apply Prim2SF_valid|].
    destruct s; by rewrite <-ltb_spec.
  - rewrite ltb_spec in Hdt. exact Hdt.
Qed.

(** Multiplication of binary64 floats is commutative: the sign, the
    product of the mantissas and the sum of the exponents are, and the
    rounding sees nothing else. *)
Lemma b64_mul_comm (x y : float) : PrimFloat.mul x y = PrimFloat.mul y x.
Proof.
  apply Prim2SF_inj. rewrite !mul_spec. unfold SF64mul, SFmul.
  destruct (Prim2SF x) as [sx|sx| |sx mx ex], (Prim2SF y) as [sy|sy| |sy my ey];
    try reflexivity; try (by rewrite xorb_comm).
  by rewrite xorb_comm, Pos.mul_comm, Z.add_comm.
Qed.

Lemma b64_value_of_int (z : Z) :
  (-1 ≤ z ≤ 1)%Z → b64_value (b64_of_int z) = Finite (of_int z).
Proof.
  intros Hz. assert (z = -1 ∨ z = 0 ∨ z = 1)%Z as [->|[->| ->]] by lia;
    compute_done.
Qed.

#[global] Instance binary64_laws : PyFloatLaws float.
Proof.
  split.
  - apply b64_mul_comm.
  - apply b64_value_of_int.
  - intros a b Hab Hba. cbn in Hab, Hba. rewrite ltb_spec in Hab, Hba.
    apply SFltb_asym in Hab. congruence.
  - intros a q Ha. by apply b64_value_positive.
  - intros t0 tf dt q Hle Hdt. apply (b64_quotient_sign false); [|exact Hdt].
    by apply not_true_is_false.
  - intros t0 tf dt q Hle Hdt. apply (b64_quotient_sign true); [|exact Hdt].
    by apply not_true_is_false.
Qed.

(** A positive divisor is not zero. *)
Lemma float_truediv_positive `{PyFloatLaws F} (a b : F) :
  float_gt b (float_of_int 0) → float_truediv a b = Ok (a ⊘ b).
Proof.
  intros Hb. unfold float_truediv.
  destruct (float_value b) as [q| |] eqn:Hv; [|done|done].
  rewrite decide_False; [done|]. intros ->.
  pose proof (float_value_positive b 0 Hb Hv) as Hpos.
  by apply (Qclt_not_eq 0 0) in Hpos.
Qed.

Lemma float_truediv_exact (a b : Qc) : float_truediv a b = py_truediv a b.
Proof. done. Qed.

(** The step count when the quotient is finite. *)
Lemma step_count_finite `{PyFloat F} (t0 tf dt quot : F) (q : Qc) :
  float_truediv (tf ⊖ t0) dt = Ok quot → float_value quot = Finite q →
  step_count t0 tf dt = Ok (py_int q).
Proof.
  intros Hd Hv. unfold step_count. rewrite Hd.
  cbn [mbind result_mbind result_bind]. unfold int_of_float. by rewrite Hv.
Qed.

Lemma step_count_zero_step `{PyFloat F} (t0 tf dt : F) :
  float_value dt = Finite 0 → step_count t0 tf dt = Raise ZeroDivisionError.
Proof.
  intros Hdt. unfold step_count, float_truediv.
  by rewrite Hdt, decide_True.
Qed.

(** The step count fails on a zero step, or on a quotient that is not
    finite, and in no other way. *)
Lemma step_count_raises `{PyFloat F} (t0 tf dt : F) (e : pyerr) :
  step_count t0 tf dt = Raise e →
  (e = ZeroDivisionError ∧ float_value dt = Finite 0)
  ∨ (∃ quot, float_truediv (tf ⊖ t0) dt = Ok quot
       ∧ ((e = OverflowError ∧ float_value quot = Infinite)
          ∨ (e = ValueError ∧ float_value quot = NotANumber))).
Proof.
  unfold step_count.
  destruct (float_truediv (tf ⊖ t0) dt) as [quot|e'] eqn:Hd;
    cbn [mbind result_mbind result_bind].
  - unfold int_of_float. destruct (float_value quot) eqn:Hv; intros He;
      simplify_eq; right; exists quot; auto.
  - intros [= ->]. left. unfold float_truediv in Hd.
    destruct (float_value dt) as [q| |]; [|done|done].
    destruct (decide (q = 0)) as [->|]; by simplify_eq.
Qed.

Lemma step_count_exact (t0 tf dt : Qc) :
  dt ≠ 0 → step_count t0 tf dt = Ok (py_int ((tf - t0) / dt)).
Proof.
  intros Hdt. unfold step_count.
  rewrite float_truediv_exact, py_truediv_nonzero by done. done.
Qed.

(** ** The integrator *)

(** Both integrators start by computing the step count, and fail when
    it fails. *)
Lemma euler_method_unfold `{PyFloat F} (f : deriv F) (y0 t0 tf dt I_ext : F) :
  euler_method f y0 t0 tf dt I_ext
  = n ← step_count t0 tf dt;
    let s := for_range n (λ _, euler_body f dt I_ext)
               {| ev_y := y0; ev_t := t0; ev_ys := [y0]; ev_ts := [t0] |} in
    Ok (ev_ts s, ev_ys s).
Proof.
  unfold euler_method, step_count.
  by destruct (float_truediv (tf ⊖ t0) dt).
Qed.

Lemma metodoEulerHisteresis_unfold `{PyFloat F} (funcion : deriv F)
    (v0 t0 tf dt : F) (estimulos : list F) (umbral anterior : F) :
  metodoEulerHisteresis funcion v0 t0 tf dt estimulos umbral anterior
  = n ← step_count t0 tf dt;
    let s := for_range n (histeresis_body funcion dt estimulos umbral)
               {| hv_voltaje := v0; hv_tiempo := t0;
                  hv_voltajeAnterior := anterior;
                  hv_voltajes := [v0]; hv_tiempos := [t0] |} in
    Ok (hv_tiempos s, hv_voltajes s).
Proof.
  unfold metodoEulerHisteresis, step_count.
  by destruct (float_truediv (tf ⊖ t0) dt).
Qed.

Lemma euler_method_raises `{PyFloat F} (f : deriv F) (y0 t0 tf dt I_ext : F)
    (e : pyerr) :
  step_count t0 tf dt = Raise e → euler_method f y0 t0 tf dt I_ext = Raise e.
Proof. intros He. by rewrite euler_method_unfold, He. Qed.

Lemma metodoEulerHisteresis_raises `{PyFloat F} (funcion : deriv F)
    (v0 t0 tf dt : F) (estimulos : list F) (umbral anterior : F) (e : pyerr) :
  step_count t0 tf dt = Raise e →
  metodoEulerHisteresis funcion v0 t0 tf dt estimulos umbral anterior = Raise e.
Proof. intros He. by rewrite metodoEulerHisteresis_unfold, He. Qed.

(** The loop of [euler_method] appends one entry to each sequence at
    every pass and keeps what is already there. *)
Lemma euler_loop_shape `{PyFloat F} (f : deriv F) (dt I_ext : F)
    (l : list nat) (s : euler_vars F) :
  let s' := foldl (λ acc _, euler_body f dt I_ext acc) s l in
  (∃ ys, ev_ys s' = ev_ys s ++ ys ∧ length ys = length l)
  ∧ (∃ ts, ev_ts s' = ev_ts s ++ ts ∧ length ts = length l).
Proof.
  revert s. induction l as [|i l IH]; intros s; cbn [foldl].
  - split; exists []; by rewrite app_nil_r.
  - destruct (IH (euler_body f dt I_ext s)) as [(ys & Hys & Hly) (ts & Hts & Hlt)].
    assert (∃ y, ev_ys (euler_body f dt I_ext s) = ev_ys s ++ [y]) as [y Hy]
      by (by eexists).
    assert (∃ t, ev_ts (euler_body f dt I_ext s) = ev_ts s ++ [t]) as [t Ht]
      by (by eexists).
    rewrite Hy in Hys. rewrite Ht in Hts.
    rewrite <-app_assoc in Hys, Hts. split.
    + eexists. split; [exact Hys|]. simpl. by rewrite Hly.
    + eexists. split; [exact Hts|]. simpl. by rewrite Hlt.
Qed.

Section integrator.
Context `{PyFloatLaws F} (f : deriv F) (dt I_ext y0 t0 : F).

Local Abbreviation pt := (euler_point f dt I_ext y0 t0).

Lemma euler_body_point (n : nat) (ys ts : list F) :
  euler_body f dt I_ext
    {| ev_y := (pt n).1; ev_t := (pt n).2; ev_ys := ys; ev_ts := ts |}
  = {| ev_y := (pt (S n)).1; ev_t := (pt (S n)).2;
       ev_ys := ys ++ [(pt (S n)).1]; ev_ts := ts ++ [(pt (S n)).2] |}.
Proof.
  unfold euler_body. cbn [ev_y ev_t ev_ys ev_ts euler_point].
  destruct (pt n) as [v t]. cbn [fst snd].
  by rewrite (float_mul_comm (f v t I_ext) dt).
Qed.

Lemma euler_loop (n : nat) :
  foldl (λ acc _, euler_body f dt I_ext acc)
    {| ev_y := y0; ev_t := t0; ev_ys := [y0]; ev_ts := [t0] |} (seq 0 n)
  = {| ev_y := (pt n).1; ev_t := (pt n).2;
       ev_ys := euler_values f dt I_ext y0 t0 n;
       ev_ts := euler_times f dt I_ext y0 t0 n |}.
Proof.
  induction n as [|n IH]; [done|].
  rewrite seq_S, foldl_app, IH. cbn [foldl].
  rewrite euler_body_point. unfold euler_values, euler_times.
  by rewrite (seq_S (S n) 0), !fmap_app.
Qed.

(** The run of [euler_method] when the step count is [n]. *)
Lemma euler_method_steps (tf : F) (n : Z) :
  step_count t0 tf dt = Ok n →
  euler_method f y0 t0 tf dt I_ext
  = Ok (euler_times f dt I_ext y0 t0 (Z.to_nat n),
        euler_values f dt I_ext y0 t0 (Z.to_nat n)).
Proof.
  intros Hn. rewrite euler_method_unfold, Hn.
  cbn [mbind result_mbind result_bind]. unfold for_range, py_range.
  by rewrite euler_loop.
Qed.

Lemma euler_values_length n : length (euler_values f dt I_ext y0 t0 n) = S n.
Proof. unfold euler_values. by rewrite length_fmap, length_seq. Qed.

Lemma euler_times_length n : length (euler_times f dt I_ext y0 t0 n) = S n.
Proof. unfold euler_times. by rewrite length_fmap, length_seq. Qed.

Lemma euler_values_lookup n k :
  (k ≤ n)%nat → euler_values f dt I_ext y0 t0 n !! k = Some (pt k).1.
Proof.
  intros Hk. unfold euler_values.
  rewrite list_lookup_fmap, lookup_seq_lt by lia. done.
Qed.

Lemma euler_times_lookup n k :
  (k ≤ n)%nat → euler_times f dt I_ext y0 t0 n !! k = Some (pt k).2.
Proof.
  intros Hk. unfold euler_times.
  rewrite list_lookup_fmap, lookup_seq_lt by lia. done.
Qed.

End integrator.

(** The run of [euler_method] in exact arithmetic, for a nonzero step. *)
Lemma euler_method_run (f : deriv Qc) (dt I_ext y0 t0 tf : Qc) :
  dt ≠ 0 →
  euler_method f y0 t0 tf dt I_ext
  = Ok (euler_times f dt I_ext y0 t0 (Z.to_nat (py_int ((tf - t0) / dt))),
        euler_values f dt I_ext y0 t0 (Z.to_nat (py_int ((tf - t0) / dt)))).
Proof. intros Hdt. by apply euler_method_steps, step_count_exact. Qed.

(** *** The integrator with hysteresis *)

Section histeresis.
Context `{PyFloat F}.
Context (funcion : deriv F) (pasoTiempo : F) (estimulos : list F) (umbral : F).
Context (v0 t0 anterior : F).

Local Abbreviation hp :=
  (histeresis_point funcion pasoTiempo estimulos umbral v0 t0 anterior).

Lemma histeresis_body_point (n : nat) (vs ts : list F) :
  histeresis_body funcion pasoTiempo estimulos umbral n
    {| hv_voltaje := (hp n).1.1; hv_tiempo := (hp n).1.2;
       hv_voltajeAnterior := (hp n).2; hv_voltajes := vs; hv_tiempos := ts |}
  = {| hv_voltaje := (hp (S n)).1.1; hv_tiempo := (hp (S n)).1.2;
       hv_voltajeAnterior := (hp (S n)).2;
       hv_voltajes := vs ++ [(hp (S n)).1.1];
       hv_tiempos := ts ++ [(hp (S n)).1.2] |}.
Proof.
  unfold histeresis_body. cbn [histeresis_point].
  cbn [hv_voltaje hv_tiempo hv_voltajeAnterior hv_voltajes hv_tiempos].
  by destruct (paso_histeresis _ _ _ _ _ _ _) as [v a].
Qed.

Lemma histeresis_loop_points (n : nat) :
  foldl (λ acc i, histeresis_body funcion pasoTiempo estimulos umbral i acc)
    {| hv_voltaje := v0; hv_tiempo := t0; hv_voltajeAnterior := anterior;
       hv_voltajes := [v0]; hv_tiempos := [t0] |} (seq 0 n)
  = {| hv_voltaje := (hp n).1.1; hv_tiempo := (hp n).1.2;
       hv_voltajeAnterior := (hp n).2;
       hv_voltajes := (λ k, (hp k).1.1) <$> seq 0 (S n);
       hv_tiempos := (λ k, (hp k).1.2) <$> seq 0 (S n) |}.
Proof.
  induction n as [|n IH]; [done|].
  rewrite seq_S, foldl_app, IH. cbn [foldl]. rewrite Nat.add_0_l.
  rewrite histeresis_body_point.
  by rewrite (seq_S (S n) 0), !fmap_app.
Qed.

(** The run of [metodoEulerHisteresis] when the step count is [n]. *)
Lemma metodoEulerHisteresis_steps (tf : F) (n : Z) :
  step_count t0 tf pasoTiempo = Ok n →
  metodoEulerHisteresis funcion v0 t0 tf pasoTiempo estimulos umbral anterior
  = Ok ((λ k, (hp k).1.2) <$> seq 0 (S (Z.to_nat n)),
        (λ k, (hp k).1.1) <$> seq 0 (S (Z.to_nat n))).
Proof.
  intros Hn. rewrite metodoEulerHisteresis_unfold, Hn.
  cbn [mbind result_mbind result_bind].
  unfold for_range, py_range. by rewrite histeresis_loop_points.
Qed.

Lemma histeresis_point_tiempo (k : nat) :
  (hp (S k)).1.2 = (hp k).1.2 ⊕ pasoTiempo.
Proof. done. Qed.

(** After every pass the retained value is the value just produced. *)
Lemma histeresis_point_retained (k : nat) : (hp (S k)).2 = (hp (S k)).1.1.
Proof.
  cbn [histeresis_point fst snd]. unfold paso_histeresis.
  by destruct (decide (float_gt (corriente estimulos k) umbral)).
Qed.

Lemma histeresis_point_first :
  (hp 1).1.1
  = if decide (float_gt (corriente estimulos 0) umbral)
    then v0 ⊕ funcion v0 t0 (corriente estimulos 0) ⊗ pasoTiempo
    else anterior.
Proof.
  cbn [histeresis_point fst snd]. unfold paso_histeresis.
  by destruct (decide (float_gt (corriente estimulos 0) umbral)).
Qed.

Lemma histeresis_point_next (k : nat) :
  (hp (S (S k))).1.1
  = if decide (float_gt (corriente estimulos (S k)) umbral)
    then (hp (S k)).1.1
         ⊕ funcion (hp (S k)).1.1 (hp (S k)).1.2 (corriente estimulos (S k))
           ⊗ pasoTiempo
    else (hp (S k)).1.1.
Proof.
  change ((hp (S (S k))).1.1)
    with (paso_histeresis funcion (hp (S k)).1.1 (hp (S k)).1.2
            (corriente estimulos (S k)) pasoTiempo umbral (hp (S k)).2).1.
  rewrite histeresis_point_retained. unfold paso_histeresis.
  by destruct (decide (float_gt (corriente estimulos (S k)) umbral)).
Qed.

End histeresis.

Lemma lookup_fmap_seq {A : Type} (g : nat → A) (m k : nat) (v : A) :
  (g <$> seq 0 m) !! k = Some v → (k < m)%nat ∧ v = g k.
Proof.
  rewrite list_lookup_fmap. intros Hk.
  destruct (seq 0 m !! k) as [j|] eqn:Hj; [|done].
  apply lookup_seq in Hj as [-> Hlt]. simpl in Hk. by simplify_eq.
Qed.

(** *** The forward update *)

(** Rounding decides the step count.  From [0] to [0.3] with the step
    [0.1] the quotient is [3] in exact arithmetic and
    [2.9999999999999996] in binary64: [euler_method] takes three steps
    in the first and two in the second. *)
Lemma euler_method_rounded_quotient :
  float_truediv (Demo.f0_3 ⊖ float_of_int 0) Demo.f0_1
  = Ok (Demo.f0_3 ⊘ Demo.f0_1)
  ∧ float_value (Demo.f0_3 ⊘ Demo.f0_1)
    = Finite (frac 6755399441055743 2251799813685248)
  ∧ frac 6755399441055743 2251799813685248 < of_int 3
  ∧ step_count (float_of_int 0) Demo.f0_3 Demo.f0_1 = Ok 2%Z
  ∧ step_count (0 : Qc) (frac 3 10) (frac 1 10) = Ok 3%Z
  ∧ ∃ ts ys,
      euler_method membrane_potential (float_of_int (-70)) (float_of_int 0)
        Demo.f0_3 Demo.f0_1 (float_of_int 9) = Ok (ts, ys)
      ∧ length ts = 3%nat ∧ length ys = 3%nat.
Proof.
  split; [vm_compute; reflexivity|]. split; [compute_done|].
  split; [compute_done|]. split; [vm_compute; reflexivity|].
  split; [compute_done|].
  eexists _, _. split; [vm_compute; reflexivity|]. done.
Qed.

(** C3, the claim as stated fails: from [t_start = 0] to [t_end = 1]
    with the positive step [5e-324] the quotient is infinite, and
    [euler_method] raises [OverflowError] where the claim has it return
    two sequences. *)
Lemma euler_method_overflow :
  float_value (float_of_int 0 : float) = Finite 0
  ∧ float_value (float_of_int 1 : float) = Finite 1
  ∧ (∃ q, float_value Demo.f5e_324 = Finite q ∧ 0 < q)
  ∧ ¬ float_gt (float_of_int 0 : float) (float_of_int 1)
  ∧ float_gt Demo.f5e_324 (float_of_int 0)
  ∧ float_truediv (float_of_int 1 ⊖ float_of_int 0) Demo.f5e_324
    = Ok PrimFloat.infinity
  ∧ euler_method membrane_potential (float_of_int (-70)) (float_of_int 0)
      (float_of_int 1) Demo.f5e_324 (float_of_int 9)
    = Raise OverflowError.
Proof.
  split; [compute_done|]. split; [compute_done|]. split.
  { eexists. split; [vm_compute; reflexivity|]. compute_done. }
  split; [compute_done|].
  split; [vm_compute; reflexivity|]. split; vm_compute; reflexivity.
Qed.

(** C3, amended.  For [t_start <= t_end] and [step_size > 0], whenever
    the quotient [(t_end - t_start) / step_size], as the floats give it,
    is finite, [euler_method] returns two sequences of length
    [n_steps + 1], where [n_steps] is the floor of that quotient; they
    start with [t_start] and the initial value, and every later entry is
    the forward update of the one before, in float arithmetic:
    [value[k+1] = value[k] + step_size * f(value[k], t[k], input)] and
    [t[k+1] = t[k] + step_size].  When the quotient is infinite the call
    raises [OverflowError], and when it is not a number [ValueError]. *)
Theorem euler_method_forward_update `{PyFloatLaws F} (f : deriv F)
    (y0 t0 tf dt I_ext : F) :
  ¬ float_gt t0 tf → float_gt dt (float_of_int 0) →
  (∀ q : Qc, float_value ((tf ⊖ t0) ⊘ dt) = Finite q →
     let n_steps := Z.to_nat (floor q) in
     ∃ ts ys,
       euler_method f y0 t0 tf dt I_ext = Ok (ts, ys)
       ∧ length ts = S n_steps ∧ length ys = S n_steps
       ∧ ts !! 0%nat = Some t0 ∧ ys !! 0%nat = Some y0
       ∧ ∀ k v t, (k < n_steps)%nat → ys !! k = Some v → ts !! k = Some t →
           ys !! S k = Some (v ⊕ dt ⊗ f v t I_ext)
           ∧ ts !! S k = Some (t ⊕ dt))
  ∧ (float_value ((tf ⊖ t0) ⊘ dt) = Infinite →
       euler_method f y0 t0 tf dt I_ext = Raise OverflowError)
  ∧ (float_value ((tf ⊖ t0) ⊘ dt) = NotANumber →
       euler_method f y0 t0 tf dt I_ext = Raise ValueError).
Proof.
  intros Hle Hdt.
  pose proof (float_truediv_positive (tf ⊖ t0) dt Hdt) as Hquot.
  split; [|split].
  - intros q Hq n_steps.
    assert (step_count t0 tf dt = Ok (floor q)) as Hn.
    { rewrite <-py_int_floor by (by eapply float_quotient_nonneg).
      by eapply step_count_finite. }
    eexists _, _. split; [by apply euler_method_steps|]. fold n_steps.
    rewrite euler_times_length, euler_values_length.
    repeat split; try done.
    + intros. rewrite euler_values_lookup in * by lia.
      rewrite euler_times_lookup in * by lia. cbn [euler_point].
      destruct (euler_point f dt I_ext y0 t0 k) as [v' t']. by simplify_eq/=.
    + intros. rewrite euler_values_lookup in * by lia.
      rewrite euler_times_lookup in * by lia. cbn [euler_point].
      destruct (euler_point f dt I_ext y0 t0 k) as [v' t']. by simplify_eq/=.
  - intros Hinf. apply euler_method_raises. unfold step_count.
    rewrite Hquot. cbn [mbind result_mbind result_bind].
    unfold int_of_float. by rewrite Hinf.
  - intros Hnan. apply euler_method_raises. unfold step_count.
    rewrite Hquot. cbn [mbind result_mbind result_bind].
    unfold int_of_float. by rewrite Hnan.
Qed.

Lemma euler_method_forward_update_witness :
  ¬ float_gt (float_of_int 0) Demo.f0_3
  ∧ float_gt Demo.f0_1 (float_of_int 0)
  ∧ float_value ((Demo.f0_3 ⊖ float_of_int 0) ⊘ Demo.f0_1)
    = Finite (frac 6755399441055743 2251799813685248)
  ∧ floor (frac 6755399441055743 2251799813685248) = 2%Z
  ∧ ∃ ts ys,
      euler_method membrane_potential (float_of_int (-70)) (float_of_int 0)
        Demo.f0_3 Demo.f0_1 (float_of_int 9) = Ok (ts, ys)
      ∧ length ts = 3%nat ∧ length ys = 3%nat.
Proof.
  assert (¬ float_gt (float_of_int 0) Demo.f0_3) as H1 by compute_done.
  assert (float_gt Demo.f0_1 (float_of_int 0)) as H2
    by (vm_compute; reflexivity).
  assert (float_value ((Demo.f0_3 ⊖ float_of_int 0) ⊘ Demo.f0_1)
          = Finite (frac 6755399441055743 2251799813685248)) as H3
    by compute_done.
  assert (floor (frac 6755399441055743 2251799813685248) = 2%Z) as H4
    by (vm_compute; reflexivity).
  split; [exact H1|]. split; [exact H2|]. split; [exact H3|].
  split; [exact H4|].
  destruct (proj1 (euler_method_forward_update membrane_potential
                     (float_of_int (-70)) (float_of_int 0) Demo.f0_3 Demo.f0_1
                     (float_of_int 9) H1 H2) _ H3)
    as (ts & ys & Hrun & Hts & Hys & _).
  exists ts, ys. split; [exact Hrun|]. rewrite H4 in Hts, Hys.
  split; [exact Hts|exact Hys].
Defined.

(** *** The step configuration *)

(** C7, the claim as stated fails: with [t_end < t_start] (and a
    positive step) neither integrator rejects the call; each returns
    the single-point sequences, in exact arithmetic and in binary64
    alike. *)
Lemma invalid_step_config_not_rejected :
  invalid_step_config 1 0 (frac 1 2)
  ∧ euler_method membrane_potential (of_int (-70)) 1 0 (frac 1 2) (of_int 9)
    = Ok ([1], [of_int (-70)])
  ∧ metodoEulerHisteresis potencialMembrana (of_int (-65)) 1 0 (frac 1 2)
      [frac 73 100] (frac 1 2) (of_int (-65))
    = Ok ([1], [of_int (-65)])
  ∧ ¬ rejected (euler_method membrane_potential (of_int (-70)) 1 0 (frac 1 2)
                  (of_int 9))
  ∧ euler_method membrane_potential (float_of_int (-70)) (float_of_int 1)
      (float_of_int 0) Demo.f0_5 (float_of_int 9)
    = Ok ([1%float], [(-70)%float])
  ∧ metodoEulerHisteresis potencialMembrana (float_of_int (-65))
      (float_of_int 1) (float_of_int 0) Demo.f0_5 [float_frac 73 100]
      Demo.f0_5 (float_of_int (-65))
    = Ok ([1%float], [(-65)%float]).
Proof.
  split; [right; compute_done|]. split; [compute_done|].
  split; [compute_done|]. split.
  { intros [e He]. revert He. compute_done. }
  split; vm_compute; reflexivity.
Qed.

(** C7, amended.  Neither integrator validates its step configuration:
    each starts by computing the step count
    [int((t_end - t_start) / step_size)] and fails only when that
    fails, before any step runs.  A zero step raises
    [ZeroDivisionError]; the other failures are [OverflowError] and
    [ValueError], for a quotient that is infinite or not a number.  When
    the step count is an integer [n] the call is not rejected: both
    integrators return sequences that start at [t_start] and the initial
    value and have [1 + max(0, n)] entries.  With [t_end < t_start] and
    a positive step, [n <= 0] and these are the single-point
    sequences. *)
Theorem step_config_unchecked `{PyFloatLaws F} (f : deriv F)
    (y0 t0 tf dt I_ext : F) (estimulos : list F) (umbral anterior : F) :
  (float_value dt = Finite 0 →
     euler_method f y0 t0 tf dt I_ext = Raise ZeroDivisionError
     ∧ metodoEulerHisteresis f y0 t0 tf dt estimulos umbral anterior
       = Raise ZeroDivisionError)
  ∧ (∀ e, step_count t0 tf dt = Raise e →
       euler_method f y0 t0 tf dt I_ext = Raise e
       ∧ metodoEulerHisteresis f y0 t0 tf dt estimulos umbral anterior
         = Raise e
       ∧ (e = ZeroDivisionError ∨ e = OverflowError ∨ e = ValueError))
  ∧ (∀ n, step_count t0 tf dt = Ok n →
       ∃ ts ys ts' ys',
         euler_method f y0 t0 tf dt I_ext = Ok (t0 :: ts, y0 :: ys)
         ∧ metodoEulerHisteresis f y0 t0 tf dt estimulos umbral anterior
           = Ok (t0 :: ts', y0 :: ys')
         ∧ Forall (λ l : list F, length l = Z.to_nat n) [ts; ys; ts'; ys'])
  ∧ (∀ n, step_count t0 tf dt = Ok n → (n ≤ 0)%Z →
       euler_method f y0 t0 tf dt I_ext = Ok ([t0], [y0])
       ∧ metodoEulerHisteresis f y0 t0 tf dt estimulos umbral anterior
         = Ok ([t0], [y0]))
  ∧ (float_gt t0 tf → float_gt dt (float_of_int 0) →
     ∀ n, step_count t0 tf dt = Ok n →
       (n ≤ 0)%Z
       ∧ euler_method f y0 t0 tf dt I_ext = Ok ([t0], [y0])
       ∧ metodoEulerHisteresis f y0 t0 tf dt estimulos umbral anterior
         = Ok ([t0], [y0])).
Proof.
  assert (∀ n, step_count t0 tf dt = Ok n →
       ∃ ts ys ts' ys',
         euler_method f y0 t0 tf dt I_ext = Ok (t0 :: ts, y0 :: ys)
         ∧ metodoEulerHisteresis f y0 t0 tf dt estimulos umbral anterior
           = Ok (t0 :: ts', y0 :: ys')
         ∧ Forall (λ l : list F, length l = Z.to_nat n) [ts; ys; ts'; ys'])
    as Hrun.
  { intros n Hn.
    pose proof (euler_loop_shape f dt I_ext (py_range n)
                  {| ev_y := y0; ev_t := t0; ev_ys := [y0]; ev_ts := [t0] |})
      as [(ys & Hys & Hly) (ts & Hts & Hlt)].
    cbn [ev_ys ev_ts] in Hys, Hts.
    exists ts, ys,
      ((λ k, (histeresis_point f dt estimulos umbral y0 t0 anterior k).1.2)
         <$> seq 1 (Z.to_nat n)),
      ((λ k, (histeresis_point f dt estimulos umbral y0 t0 anterior k).1.1)
         <$> seq 1 (Z.to_nat n)).
    split; [|split].
    - rewrite euler_method_unfold, Hn. cbn [mbind result_mbind result_bind].
      unfold for_range. by rewrite Hys, Hts.
    - by rewrite (metodoEulerHisteresis_steps _ _ _ _ _ _ _ _ n).
    - unfold py_range in Hly, Hlt. rewrite length_seq in Hly, Hlt.
      repeat constructor; try done; by rewrite length_fmap, length_seq. }
  assert (∀ n, step_count t0 tf dt = Ok n → (n ≤ 0)%Z →
       euler_method f y0 t0 tf dt I_ext = Ok ([t0], [y0])
       ∧ metodoEulerHisteresis f y0 t0 tf dt estimulos umbral anterior
         = Ok ([t0], [y0])) as Hsingle.
  { intros n Hn Hle.
    destruct (Hrun n Hn) as (ts & ys & ts' & ys' & He & Hh & Hall).
    replace (Z.to_nat n) with 0%nat in Hall by lia.
    rewrite He, Hh.
    apply Forall_cons in Hall as [?%nil_length_inv Hall].
    apply Forall_cons in Hall as [?%nil_length_inv Hall].
    apply Forall_cons in Hall as [?%nil_length_inv Hall].
    apply Forall_cons in Hall as [?%nil_length_inv Hall].
    by subst. }
  split; [|split; [|split; [exact Hrun|split; [exact Hsingle|]]]].
  - intros Hdt. pose proof (step_count_zero_step t0 tf dt Hdt) as He.
    split; [by apply euler_method_raises|by apply metodoEulerHisteresis_raises].
  - intros e He.
    split; [by apply euler_method_raises|].
    split; [by apply metodoEulerHisteresis_raises|].
    destruct (step_count_raises t0 tf dt e He)
      as [[-> _]|(quot & _ & [[-> _]|[-> _]])]; auto.
  - intros Hlt Hdt n Hn.
    assert (n ≤ 0)%Z as Hle; [|split; [exact Hle|exact (Hsingle n Hn Hle)]].
    unfold step_count in Hn.
    rewrite (float_truediv_positive _ _ Hdt) in Hn.
    cbn [mbind result_mbind result_bind] in Hn. unfold int_of_float in Hn.
    destruct (float_value ((tf ⊖ t0) ⊘ dt)) as [q| |] eqn:Hq; [|done|done].
    injection Hn as <-.
    assert (q ≤ 0) as Hq0.
    { eapply float_quotient_nonpos; [|exact Hdt|exact Hq].
      by apply float_gt_asym. }
    apply py_int_nonpos, Hq0.
Qed.

Lemma step_config_unchecked_witness :
  float_gt (float_of_int 1) (float_of_int 0)
  ∧ float_gt Demo.f0_5 (float_of_int 0)
  ∧ step_count (float_of_int 1) (float_of_int 0) Demo.f0_5 = Ok (-2)%Z
  ∧ euler_method membrane_potential (float_of_int (-70)) (float_of_int 1)
      (float_of_int 0) Demo.f0_5 (float_of_int 9)
    = Ok ([float_of_int 1], [float_of_int (-70)])
  ∧ step_count (float_of_int 0) (float_of_int 1) Demo.f5e_324
    = Raise OverflowError
  ∧ euler_method membrane_potential (float_of_int (-70)) (float_of_int 0)
      (float_of_int 1) Demo.f5e_324 (float_of_int 9)
    = Raise OverflowError.
Proof.
  assert (float_gt (float_of_int 1 : float) (float_of_int 0)) as H0
    by (vm_compute; reflexivity).
  assert (float_gt Demo.f0_5 (float_of_int 0)) as H0'
    by (vm_compute; reflexivity).
  assert (step_count (float_of_int 1) (float_of_int 0) Demo.f0_5 = Ok (-2)%Z)
    as H1 by (vm_compute; reflexivity).
  assert (step_count (float_of_int 0) (float_of_int 1) Demo.f5e_324
          = Raise OverflowError) as H3 by (vm_compute; reflexivity).
  split; [exact H0|]. split; [exact H0'|]. split; [exact H1|].
  split; [|split; [exact H3|]].
  - destruct (step_config_unchecked membrane_potential (float_of_int (-70))
                (float_of_int 1) (float_of_int 0) Demo.f0_5 (float_of_int 9)
                [] (float_of_int 0) (float_of_int 0))
      as (_ & _ & _ & _ & Hneg).
    exact (proj1 (proj2 (Hneg H0 H0' _ H1))).
  - destruct (step_config_unchecked membrane_potential (float_of_int (-70))
                (float_of_int 0) (float_of_int 1) Demo.f5e_324 (float_of_int 9)
                [] (float_of_int 0) (float_of_int 0)) as (_ & Hraise & _).
    exact (proj1 (Hraise _ H3)).
Defined.

(** ** Decay of the leaky integrator *)

Lemma Qcopp_lt_swap (x y : Qc) : x < y → - y < - x.
Proof.
  intros H. apply Qclt_minus_iff. rewrite Qcopp_involutive.
  rewrite Qcplus_comm. by apply Qclt_minus_iff in H.
Qed.





(** The forward update in exact arithmetic. *)
Lemma euler_point_succ (f : deriv Qc) (dt I_ext y0 t0 : Qc) (k : nat) :
  euler_point f dt I_ext y0 t0 (S k)
  = ((euler_point f dt I_ext y0 t0 k).1
     + dt * f (euler_point f dt I_ext y0 t0 k).1
              (euler_point f dt I_ext y0 t0 k).2 I_ext,
     (euler_point f dt I_ext y0 t0 k).2 + dt).
Proof. cbn [euler_point]. by destruct (euler_point f dt I_ext y0 t0 k). Qed.



(** In binary64 a small step is absorbed: with [tau = 10] and the step
    [1e-17] the increment is below half the spacing of the floats at
    [1], and every value that [euler_method] returns from [1] is [1]. *)
Lemma small_step_is_absorbed :
  ∃ ts,
    euler_method
      (membrane_potential_with (float_of_int 10) (float_of_int 0))
      (float_of_int 1) (float_of_int 0) Demo.f1e_16 Demo.f1e_17
      (float_of_int 0)
    = Ok (ts, replicate 10 1%float).
Proof. eexists. vm_compute. reflexivity. Qed.



(** ** Stimulus selection *)

Lemma filter_iff_elem {A : Type} (P Q : A → Prop)
    `{!∀ x, Decision (P x)} `{!∀ x, Decision (Q x)} (l : list A) :
  (∀ x, x ∈ l → P x ↔ Q x) → filter P l = filter Q l.
Proof.
  induction l as [|x l IH]; intros Hiff; [done|].
  rewrite !filter_cons.
  rewrite IH by (intros y Hy; apply Hiff; by right).
  destruct (decide (P x)) as [HP|HP], (decide (Q x)) as [HQ|HQ]; try done;
    exfalso; apply (Hiff x (list_elem_of_here _ _)) in HP || apply (Hiff x (list_elem_of_here _ _)) in HQ;
    done.
Qed.

(** The running maximum of [max]: one of the items, and below none. *)
Lemma running_max (l : list Qc) (m0 : Qc) :
  let m := foldl (λ m v, if decide (m < v) then v else m) m0 l in
  (m = m0 ∨ m ∈ l) ∧ m0 ≤ m ∧ Forall (λ w, w ≤ m) l.
Proof.
  revert m0. induction l as [|x l IH]; intros m0; simpl.
  - split; [by left|]. split; [apply Qcle_refl|constructor].
  - destruct (decide (m0 < x)) as [Hlt|Hge].
    + destruct (IH x) as (Hin & Hle & Hall). split; [|split].
      * right. destruct Hin as [->|Hin]; [by left|by right].
      * apply Qcle_trans with x; [by apply Qclt_le_weak|done].
      * by constructor.
    + destruct (IH m0) as (Hin & Hle & Hall). split; [|split].
      * destruct Hin as [->|Hin]; [by left|right; by right].
      * done.
      * constructor; [|done].
        apply Qcle_trans with m0; [by apply Qcnot_lt_le|done].
Qed.

Lemma py_max_is_maximum (stimuli : list Qc) :
  stimuli ≠ [] → ∃ m, py_max stimuli = Ok m ∧ is_maximum stimuli m.
Proof.
  destruct stimuli as [|x l]; [done|]. intros _. eexists. split; [done|].
  destruct (running_max l x) as (Hin & Hle & Hall). split.
  - destruct Hin as [->|Hin]; [by left|by right].
  - by constructor.
Qed.

Lemma py_max_empty : py_max [] = Raise ValueError.
Proof. done. Qed.

Lemma is_maximum_unique (stimuli : list Qc) (m m' : Qc) :
  is_maximum stimuli m → is_maximum stimuli m' → m = m'.
Proof.
  intros [Hin Hall] [Hin' Hall']. rewrite Forall_forall in Hall, Hall'.
  apply Qcle_antisym; auto.
Qed.

(** The comprehension of the selectors picks the positions holding
    [max_value], in ascending order. *)
Lemma max_indices_from (stimuli : list Qc) (max_value : Qc) (a : nat) :
  fst <$> filter (λ p, p.2 = max_value) (zip (seq a (length stimuli)) stimuli)
  = filter (λ i, stimuli !! (i - a)%nat = Some max_value) (seq a (length stimuli)).
Proof.
  revert a. induction stimuli as [|x l IH]; intros a; [done|].
  simpl. rewrite !filter_cons. simpl. rewrite Nat.sub_diag. simpl.
  assert (filter (λ i, (x :: l) !! (i - a)%nat = Some max_value) (seq (S a) (length l))
          = filter (λ i, l !! (i - S a)%nat = Some max_value) (seq (S a) (length l)))
    as ->.
  { apply filter_iff_elem. intros i Hi. apply elem_of_seq in Hi.
    replace (i - a)%nat with (S (i - S a)) by lia. done. }
  rewrite <-IH.
  destruct (decide (x = max_value)) as [->|Hne].
  - rewrite decide_True by done. done.
  - rewrite decide_False by congruence. done.
Qed.

Lemma max_indices_filter (stimuli : list Qc) (max_value : Qc) :
  max_indices stimuli max_value
  = filter (λ i, stimuli !! i = Some max_value) (seq 0 (length stimuli)).
Proof.
  unfold max_indices, enumerate. rewrite max_indices_from.
  apply filter_iff_elem. intros i _. by rewrite Nat.sub_0_r.
Qed.

Lemma max_indices_maximisers (stimuli : list Qc) (m : Qc) :
  is_maximum stimuli m → max_indices stimuli m = maximisers stimuli.
Proof.
  intros [Hin Hall]. rewrite max_indices_filter. unfold maximisers.
  apply filter_iff_elem. intros i _. unfold attains_max. split.
  - intros ->. done.
  - destruct (stimuli !! i) as [v|] eqn:Hv; [|done]. intros Hallv.
    f_equal. apply Qcle_antisym.
    + rewrite Forall_forall in Hall. apply Hall.
      by eapply list_elem_of_lookup_2.
    + rewrite Forall_forall in Hallv. by apply Hallv.
Qed.

Lemma elem_of_maximisers (stimuli : list Qc) (i : nat) :
  i ∈ maximisers stimuli
  ↔ ∃ v, stimuli !! i = Some v ∧ ∀ w, w ∈ stimuli → w ≤ v.
Proof.
  unfold maximisers. rewrite list_elem_of_filter, elem_of_seq.
  unfold attains_max. split.
  - intros [Hmax _]. destruct (stimuli !! i) as [v|]; [|done].
    exists v. split; [done|]. by rewrite Forall_forall in Hmax.
  - intros (v & Hv & Hmax). rewrite Hv. split.
    + by rewrite Forall_forall.
    + apply lookup_lt_Some in Hv. lia.
Qed.

Lemma maximisers_nonempty (stimuli : list Qc) :
  stimuli ≠ [] → maximisers stimuli ≠ [].
Proof.
  intros Hne. destruct (py_max_is_maximum stimuli Hne) as (m & _ & Hin & Hall).
  apply list_elem_of_lookup in Hin as [i Hi].
  assert (i ∈ maximisers stimuli) as Hmem.
  { apply elem_of_maximisers. exists m. split; [done|].
    by rewrite Forall_forall in Hall. }
  intros Hnil. rewrite Hnil in Hmem. by apply not_elem_of_nil in Hmem.
Qed.

(** Both selectors, in terms of the maximising indices. *)
Lemma selectors_maximisers (stimuli : list Qc) :
  stimuli ≠ [] →
  select_stimulus stimuli
  = (if decide (1 < length (maximisers stimuli))%nat
     then Ok (Indices (maximisers stimuli))
     else i ← first_item (maximisers stimuli); Ok (Index i))
  ∧ select_stimulus_no_winner stimuli
    = (if decide (1 < length (maximisers stimuli))%nat
       then Ok NoSelection
       else i ← first_item (maximisers stimuli); Ok (Index i)).
Proof.
  intros Hne. destruct (py_max_is_maximum stimuli Hne) as (m & Hm & Hmax).
  unfold select_stimulus, select_stimulus_no_winner. rewrite Hm. simpl.
  by rewrite (max_indices_maximisers stimuli m Hmax).
Qed.

(** C4.  On a non-empty stimulus vector, with [M] the indices attaining
    the maximum (exact comparison): when [M] has two or more entries,
    [select_stimulus] returns exactly [M] and
    [select_stimulus_no_winner] returns the no-selection marker; when
    [M] is a single index, both return that index. *)
Theorem selectors_on_ties (stimuli : list Qc) :
  stimuli ≠ [] →
  (∀ i, i ∈ maximisers stimuli
        ↔ ∃ v, stimuli !! i = Some v ∧ ∀ w, w ∈ stimuli → w ≤ v)
  ∧ maximisers stimuli ≠ []
  ∧ ((2 ≤ length (maximisers stimuli))%nat →
       select_stimulus stimuli = Ok (Indices (maximisers stimuli))
       ∧ select_stimulus_no_winner stimuli = Ok NoSelection)
  ∧ (∀ i, maximisers stimuli = [i] →
       select_stimulus stimuli = Ok (Index i)
       ∧ select_stimulus_no_winner stimuli = Ok (Index i)).
Proof.
  intros Hne. split; [apply elem_of_maximisers|].
  split; [by apply maximisers_nonempty|].
  destruct (selectors_maximisers stimuli Hne) as [-> ->]. split.
  - intros Hlen. destruct (decide (1 < length (maximisers stimuli))%nat); [done|lia].
  - intros i ->. done.
Qed.

Lemma selectors_on_ties_witness :
  stimuli_2 ≠ []
  ∧ select_stimulus stimuli_2 = Ok (Indices [3; 8]%nat)
  ∧ select_stimulus_no_winner stimuli_2 = Ok NoSelection.
Proof.
  assert (stimuli_2 ≠ []) as Hne by done.
  split; [exact Hne|].
  destruct (selectors_on_ties stimuli_2 Hne) as (_ & _ & Hties & _).
  assert (maximisers stimuli_2 = [3; 8]%nat) as HM by (vm_compute; reflexivity).
  rewrite HM in Hties. apply Hties. simpl. lia.
Defined.

(** ** Motor scheme *)

Lemma of_nat_succ (n : nat) : of_int (Z.of_nat (S n)) = of_int (Z.of_nat n) + 1.
Proof. unfold of_int. by rewrite Nat2Z.inj_succ, <-Z.add_1_r, Z2Qc_inj_add, Z2Qc_inj_1. Qed.

Lemma of_nat_nonzero (n : nat) : n ≠ 0%nat → of_int (Z.of_nat n) ≠ 0.
Proof.
  intros Hn. unfold of_int. rewrite <-Z2Qc_inj_0. intros H%Z2Qc_inj. lia.
Qed.

Lemma centre_eq (n : nat) : centre n = (of_int (Z.of_nat n) - 1) / 2.
Proof.
  unfold centre, of_int. by rewrite Z2Qc_inj_sub, Z2Qc_inj_1, Z2Qc_inj_2.
Qed.

Lemma foldl_plus (a : Qc) (l : list Qc) :
  foldl Qcplus a l = a + foldr Qcplus 0 l.
Proof.
  revert a. induction l as [|x l IH]; intros a; simpl.
  - by rewrite Qcplus_0_r.
  - rewrite IH. ring.
Qed.

Lemma py_sum_foldr (l : list Qc) : py_sum l = foldr Qcplus 0 l.
Proof. unfold py_sum. by rewrite foldl_plus, Qcplus_0_l. Qed.

Lemma sum_shifted {A : Type} (g : A → Qc) (c : Qc) (l : list A) :
  foldr Qcplus 0 ((λ i, g i - c) <$> l)
  = foldr Qcplus 0 (g <$> l) - of_int (Z.of_nat (length l)) * c.
Proof.
  induction l as [|x l IH].
  - rewrite !fmap_nil. cbn [foldr length]. change (Z.of_nat 0) with 0%Z.
    unfold of_int. rewrite Z2Qc_inj_0. ring.
  - rewrite !fmap_cons. cbn [foldr length]. rewrite IH, of_nat_succ. ring.
Qed.

Lemma average_shifted {A : Type} (g : A → Qc) (c : Qc) (l : list A) :
  l ≠ [] → average ((λ i, g i - c) <$> l) = average (g <$> l) - c.
Proof.
  intros Hne. unfold average. rewrite sum_shifted, !length_fmap.
  assert (of_int (Z.of_nat (length l)) ≠ 0) as Hlen.
  { apply of_nat_nonzero. by destruct l. }
  by field.
Qed.

Lemma motor_direction_indices (n : nat) (l : list nat) :
  l ≠ [] →
  motor_direction (Indices l) n = Ok (average (offset_from_centre n <$> l)).
Proof.
  intros Hne. unfold motor_direction.
  rewrite py_truediv_nonzero by (apply of_nat_nonzero; by destruct l).
  unfold average. rewrite py_sum_foldr, length_fmap. do 3 f_equal.
  apply list_fmap_ext. intros i x _. unfold offset_from_centre.
  by rewrite centre_eq.
Qed.

Lemma motor_direction_index (n i : nat) :
  motor_direction (Index i) n = Ok (offset_from_centre n i).
Proof. unfold motor_direction, offset_from_centre. by rewrite centre_eq. Qed.

(** C5.  For every stimulus count [n]: a single index [i] is encoded
    as [i - (n-1)/2]; a non-empty list of tied indices is encoded as the
    average of [i_j - (n-1)/2], which equals [average(i_j) - (n-1)/2];
    [motor_scheme] encodes in this way what [select_stimulus] selects;
    and for the stimuli of the second simulation the tied indices are
    [3] and [8] and the direction is [1]. *)
Theorem motor_scheme_encoding (n : nat) :
  (∀ i, motor_direction (Index i) n
        = Ok (of_int (Z.of_nat i) - (of_int (Z.of_nat n) - 1) / 2))
  ∧ (∀ l, l ≠ [] →
       motor_direction (Indices l) n
       = Ok (average ((λ i, of_int (Z.of_nat i) - (of_int (Z.of_nat n) - 1) / 2) <$> l))
       ∧ average ((λ i, of_int (Z.of_nat i) - (of_int (Z.of_nat n) - 1) / 2) <$> l)
         = average ((λ i, of_int (Z.of_nat i)) <$> l)
           - (of_int (Z.of_nat n) - 1) / 2)
  ∧ (∀ stimuli, length stimuli = n → stimuli ≠ [] →
       (∀ i, maximisers stimuli = [i] →
          motor_scheme stimuli = Ok (offset_from_centre n i))
       ∧ ((2 ≤ length (maximisers stimuli))%nat →
          motor_scheme stimuli
          = Ok (average (offset_from_centre n <$> maximisers stimuli))))
  ∧ select_stimulus stimuli_2 = Ok (Indices [3; 8]%nat)
  ∧ motor_scheme stimuli_2 = Ok 1.
Proof.
  split; [apply motor_direction_index|]. split; [|split].
  - intros l Hne. split; [by apply motor_direction_indices|].
    by apply average_shifted.
  - intros stimuli <- Hne. unfold motor_scheme.
    destruct (selectors_maximisers stimuli Hne) as [-> _]. split.
    + intros i ->. simpl. apply motor_direction_index.
    + intros Hlen.
      destruct (decide (1 < length (maximisers stimuli))%nat); [|lia].
      simpl. apply motor_direction_indices. by apply maximisers_nonempty.
  - split; compute_done.
Qed.

Lemma motor_scheme_encoding_witness :
  [3; 8]%nat ≠ [] ∧ stimuli_2 ≠ [] ∧ (2 ≤ length (maximisers stimuli_2))%nat
  ∧ motor_direction (Indices [3; 8]%nat) 10
    = Ok (average (offset_from_centre 10 <$> [3; 8]%nat))
  ∧ motor_scheme stimuli_2
    = Ok (average (offset_from_centre 10 <$> maximisers stimuli_2)).
Proof.
  assert ([3; 8]%nat ≠ []) as H1 by done.
  assert (stimuli_2 ≠ []) as H2 by done.
  assert (2 ≤ length (maximisers stimuli_2))%nat as H3 by (vm_compute; lia).
  split; [exact H1|]. split; [exact H2|]. split; [exact H3|].
  destruct (motor_scheme_encoding 10) as (_ & Hl & Hs & _). split.
  - exact (proj1 (Hl [3; 8]%nat H1)).
  - exact (proj2 (Hs stimuli_2 eq_refl H2) H3).
Defined.

(** ** Hysteresis *)

(** C6.  The hysteresis comparison is strict.  [hysteresis] returns the
    maximum stimulus only when it is strictly greater than the
    threshold, and returns the previous output otherwise, also when the
    two are equal; on an empty stimulus vector it raises.  The step of
    [metodoEulerHisteresis] applies the
    Euler update and refreshes the retained value only when the input is
    strictly greater than the threshold, and otherwise returns the
    retained value and leaves it unchanged.  With threshold [0.75],
    previous output [0.7] and maximum stimulus [0.73] the result is
    [0.7].  The step of [metodoEulerHisteresis] does the same in float
    arithmetic: the comparison is the floats' [>], which fails on equal
    floats. *)
Theorem hysteresis_strict (stimuli : list Qc) (m prev thr : Qc) :
  is_maximum stimuli m →
  (thr < m → hysteresis stimuli prev thr = Ok m)
  ∧ (m ≤ thr → hysteresis stimuli prev thr = Ok prev)
  ∧ hysteresis stimuli prev m = Ok prev
  ∧ hysteresis [] prev thr = Raise ValueError
  ∧ (∀ f v t I dt umbral anterior,
       (umbral < I →
          paso_histeresis f v t I dt umbral anterior
          = (v + f v t I * dt, v + f v t I * dt))
       ∧ (I ≤ umbral → paso_histeresis f v t I dt umbral anterior = (anterior, anterior)))
  ∧ is_maximum stimuli_4 (frac 73 100)
  ∧ hysteresis stimuli_4 (frac 7 10) (frac 75 100) = Ok (frac 7 10)
  ∧ (∀ `{PyFloatLaws F} (f : deriv F) (v t I dt umbral anterior : F),
       (float_gt I umbral →
          paso_histeresis f v t I dt umbral anterior
          = (v ⊕ f v t I ⊗ dt, v ⊕ f v t I ⊗ dt))
       ∧ (¬ float_gt I umbral →
          paso_histeresis f v t I dt umbral anterior = (anterior, anterior))
       ∧ paso_histeresis f v t I dt I anterior = (anterior, anterior)).
Proof.
  intros Hmax.
  assert (py_max stimuli = Ok m) as Hm.
  { assert (stimuli ≠ []) as Hne.
    { destruct Hmax as [Hin _]. intros ->. by apply not_elem_of_nil in Hin. }
    destruct (py_max_is_maximum stimuli Hne) as (m' & Hm' & Hmax').
    by rewrite (is_maximum_unique stimuli m m'). }
  assert (∀ thr', hysteresis stimuli prev thr'
                  = if decide (thr' < m) then Ok m else Ok prev) as Hh.
  { intros thr'. unfold hysteresis. by rewrite Hm. }
  split; [|split; [|split; [|split; [|split; [|split; [|split]]]]]].
  - intros Hlt. by rewrite Hh, decide_True.
  - intros Hle. by rewrite Hh, decide_False by (by apply Qcle_not_lt).
  - by rewrite Hh, decide_False by (apply Qcle_not_lt, Qcle_refl).
  - done.
  - intros. unfold paso_histeresis. exact_arith. split.
    + intros Hlt. by rewrite decide_True.
    + intros Hle. by rewrite decide_False by (by apply Qcle_not_lt).
  - unfold is_maximum. compute_done.
  - compute_done.
  - intros F HF HL f v t I dt umbral anterior. unfold paso_histeresis.
    split; [|split].
    + intros Hgt. by rewrite decide_True.
    + intros Hgt. by rewrite decide_False.
    + rewrite decide_False; [done|]. intros Hgt.
      by apply (float_gt_asym I I).
Qed.

Lemma hysteresis_strict_witness :
  is_maximum stimuli_4 (frac 73 100) ∧ frac 73 100 ≤ threshold
  ∧ hysteresis stimuli_4 previous_output threshold = Ok previous_output.
Proof.
  assert (is_maximum stimuli_4 (frac 73 100)) as H1
    by (unfold is_maximum; compute_done).
  assert (frac 73 100 ≤ threshold) as H2 by compute_done.
  split; [exact H1|]. split; [exact H2|].
  destruct (hysteresis_strict stimuli_4 (frac 73 100) previous_output threshold H1)
    as (_ & Hheld & _).
  exact (Hheld H2).
Defined.

(** ** Training the Hopfield memory *)

Lemma fmap_as_seq {A B : Type} `{Inhabited A} (h : A → B) (l : list A) :
  h <$> l = (λ i, h (l !!! i)) <$> seq 0 (length l).
Proof.
  apply list_eq. intros i. rewrite !list_lookup_fmap.
  destruct (decide (i < length l)%nat) as [Hlt|Hge].
  - rewrite lookup_seq_lt by done. simpl.
    by rewrite (list_lookup_lookup_total_lt l i Hlt).
  - rewrite lookup_seq_ge by lia. by rewrite lookup_ge_None_2 by lia.
Qed.

Lemma zip_with_fmap_same {A B C D : Type} (f : B → C → D) (g : A → B)
    (h : A → C) (l : list A) :
  zip_with f (g <$> l) (h <$> l) = (λ x, f (g x) (h x)) <$> l.
Proof. induction l as [|x l IH]; [done|]. simpl. f_equal. exact IH. Qed.

Lemma tabulate_ext (L : nat) (f g : nat → nat → Qc) :
  (∀ i j, (i < L)%nat → (j < L)%nat → f i j = g i j) →
  tabulate L f = tabulate L g.
Proof.
  intros Hfg. unfold tabulate. apply list_fmap_ext. intros ? i Hi.
  apply lookup_seq in Hi as [-> Hi]. apply list_fmap_ext. intros ? j Hj.
  apply lookup_seq in Hj as [-> Hj]. by apply Hfg.
Qed.

Lemma entry_tabulate (L : nat) (f : nat → nat → Qc) (i j : nat) :
  (i < L)%nat → (j < L)%nat → entry (tabulate L f) i j = Some (f i j).
Proof.
  intros Hi Hj. unfold entry, tabulate.
  rewrite list_lookup_fmap, lookup_seq_lt by done. simpl.
  by rewrite list_lookup_fmap, lookup_seq_lt by done.
Qed.

Lemma np_outer_tabulate (p : list Z) :
  np_outer p p
  = (λ i, (λ j, wrap64 (p !!! i * p !!! j)) <$> seq 0 (length p))
      <$> seq 0 (length p).
Proof.
  unfold np_outer. rewrite (fmap_as_seq _ p). apply list_fmap_ext.
  intros _ i _. by rewrite (fmap_as_seq _ p).
Qed.

Lemma np_zeros_tabulate (L : nat) : np_zeros L L = tabulate L (λ _ _, 0).
Proof.
  assert (∀ {A B : Type} (c : B) (l : list A),
            (λ _, c) <$> l = replicate (length l) c) as Hconst.
  { intros A B c l. induction l as [|x l IH]; [done|]. simpl. f_equal. exact IH. }
  unfold np_zeros, tabulate. by rewrite !Hconst, !length_seq.
Qed.

Lemma iadd_tabulate (L : nat) (f : nat → nat → Qc) (p : list Z) :
  length p = L →
  iadd (tabulate L f) (np_outer p p)
  = tabulate L (λ i j, f i j + of_int (wrap64 (p !!! i * p !!! j))).
Proof.
  intros <-. unfold iadd, tabulate. rewrite np_outer_tabulate.
  rewrite zip_with_fmap_same. apply list_fmap_ext. intros _ i _.
  by rewrite zip_with_fmap_same.
Qed.

Lemma accumulate_tabulate (L : nat) (f : nat → nat → Qc) (ps : list (list Z)) :
  Forall (λ p, length p = L) ps →
  foldl (λ W p, iadd W (np_outer p p)) (tabulate L f) ps
  = tabulate L (λ i j,
      foldl (λ acc (p : list Z), acc + of_int (wrap64 (p !!! i * p !!! j)))
            (f i j) ps).
Proof.
  intros Hps. revert f. induction Hps as [|p ps Hp Hps IH]; intros f; [done|].
  simpl. rewrite iadd_tabulate by done. by rewrite IH.
Qed.

Lemma idiv_tabulate (L n : nat) (f : nat → nat → Qc) :
  idiv (tabulate L f) n = tabulate L (λ i j, f i j / of_int (Z.of_nat n)).
Proof.
  unfold idiv, tabulate. rewrite <-list_fmap_compose.
  apply list_fmap_ext. intros _ i _. simpl. by rewrite <-list_fmap_compose.
Qed.

Lemma scale_tabulate (L : nat) (c : Qc) (f : nat → nat → Qc) :
  scale (tabulate L f) c = tabulate L (λ i j, f i j * c).
Proof.
  unfold scale, tabulate. rewrite <-list_fmap_compose.
  apply list_fmap_ext. intros _ i _. simpl. by rewrite <-list_fmap_compose.
Qed.

Lemma insert_fmap_seq (L i : nat) (v : Qc) (g : nat → Qc) :
  <[i := v]> (g <$> seq 0 L)
  = (λ j, if decide (i = j) then v else g j) <$> seq 0 L.
Proof.
  apply list_eq. intros j. rewrite list_lookup_fmap.
  destruct (decide (j < L)%nat) as [Hlt|Hge].
  - rewrite lookup_seq_lt by done. simpl.
    destruct (decide (i = j)) as [->|Hne].
    + by rewrite list_lookup_insert_eq by (by rewrite length_fmap, length_seq).
    + rewrite list_lookup_insert_ne by done.
      by rewrite list_lookup_fmap, lookup_seq_lt by done.
  - rewrite lookup_seq_ge by lia. simpl. apply lookup_ge_None_2.
    rewrite length_insert, length_fmap, length_seq. lia.
Qed.

Lemma fill_diagonal_tabulate (L : nat) (v : Qc) (f : nat → nat → Qc) :
  fill_diagonal (tabulate L f) v
  = tabulate L (λ i j, if decide (i = j) then v else f i j).
Proof.
  unfold fill_diagonal, tabulate. apply list_eq. intros i.
  rewrite list_lookup_imap, !list_lookup_fmap.
  destruct (decide (i < L)%nat) as [Hlt|Hge].
  - rewrite lookup_seq_lt by done. simpl. by rewrite insert_fmap_seq.
  - by rewrite lookup_seq_ge by lia.
Qed.

Lemma entry_tabulate_outside (L : nat) (f : nat → nat → Qc) (i j : nat) :
  ¬ ((i < L)%nat ∧ (j < L)%nat) → entry (tabulate L f) i j = None.
Proof.
  intros Hout. unfold entry, tabulate. rewrite list_lookup_fmap.
  destruct (decide (i < L)%nat) as [Hi|Hi].
  - rewrite lookup_seq_lt by done. simpl.
    rewrite list_lookup_fmap, lookup_seq_ge by lia. done.
  - by rewrite lookup_seq_ge by lia.
Qed.

Lemma wrap64_bipolar (x y : Z) :
  (x = 1 ∨ x = -1)%Z → (y = 1 ∨ y = -1)%Z → wrap64 (x * y) = (x * y)%Z.
Proof. intros [->| ->] [->| ->]; reflexivity. Qed.

Lemma bipolar_lookup_total (p : list Z) (i : nat) :
  bipolar p → (i < length p)%nat → (p !!! i = 1 ∨ p !!! i = -1)%Z.
Proof.
  intros Hp Hi. unfold bipolar in Hp. rewrite Forall_lookup in Hp.
  apply (Hp i). by apply list_lookup_lookup_total_lt.
Qed.

Lemma accumulate_sum {A : Type} (g : A → Qc) (a : Qc) (l : list A) :
  foldl (λ acc x, acc + g x) a l = a + foldr Qcplus 0 (g <$> l).
Proof.
  revert a. induction l as [|x l IH]; intros a.
  - rewrite fmap_nil. cbn [foldl foldr]. by rewrite Qcplus_0_r.
  - rewrite fmap_cons. cbn [foldl foldr]. rewrite IH. ring.
Qed.

Lemma train_hopfield_tabulate (patterns : ndarray2) (nf : Qc) :
  wf_ndarray2 patterns →
  train_hopfield patterns nf
  = tabulate (shape1 patterns) (λ i j,
      (if decide (i = j) then 0
       else foldl (λ acc (p : list Z), acc + of_int (wrap64 (p !!! i * p !!! j)))
              0 (rows patterns) / of_int (Z.of_nat (shape1 patterns))) * nf).
Proof.
  intros Hwf. unfold train_hopfield.
  rewrite np_zeros_tabulate, accumulate_tabulate by done.
  by rewrite idiv_tabulate, fill_diagonal_tabulate, scale_tabulate.
Qed.

Lemma trained_entry_sym (ps : list (list Z)) (L : nat) (nf : Qc) (i j : nat) :
  trained_entry ps L nf i j = trained_entry ps L nf j i.
Proof.
  unfold trained_entry.
  destruct (decide (i = j)) as [Heq|Hne].
  { subst. by rewrite decide_True. }
  rewrite decide_False by congruence. do 2 f_equal. unfold outer_sum.
  f_equal. apply list_fmap_ext. intros _ p _. by rewrite Z.mul_comm.
Qed.

(** C1.  On a batch of bipolar patterns of common length [L] (non-empty
    or not), [train_hopfield] returns the [L × L] matrix whose entry
    [(i, j)] is the sum over the patterns of [p[i] * p[j]], divided by
    [L], zeroed on the diagonal, then scaled by the normalization factor;
    the matrix is symmetric and its diagonal is zero. *)
Theorem train_hopfield_hebbian (patterns : ndarray2) (nf : Qc) (L : nat) :
  rows patterns ≠ [] → wf_ndarray2 patterns → shape1 patterns = L →
  Forall bipolar (rows patterns) →
  train_hopfield patterns nf = tabulate L (trained_entry (rows patterns) L nf)
  ∧ (∀ i j, (i < L)%nat → (j < L)%nat →
       entry (train_hopfield patterns nf) i j
       = Some (trained_entry (rows patterns) L nf i j))
  ∧ (∀ i j, entry (train_hopfield patterns nf) i j
            = entry (train_hopfield patterns nf) j i)
  ∧ (∀ i, (i < L)%nat → entry (train_hopfield patterns nf) i i = Some 0).
Proof.
  intros _ Hwf HL Hbip.
  assert (train_hopfield patterns nf
          = tabulate L (trained_entry (rows patterns) L nf)) as Heq.
  { rewrite train_hopfield_tabulate by done. rewrite HL.
    apply tabulate_ext. intros i j Hi Hj. unfold trained_entry.
    destruct (decide (i = j)) as [->|Hne]; [done|].
    do 2 f_equal. rewrite accumulate_sum, Qcplus_0_l. unfold outer_sum.
    f_equal. apply list_fmap_ext. intros k p Hp. f_equal.
    assert (length p = L) as Hlen.
    { unfold wf_ndarray2 in Hwf. rewrite Forall_lookup in Hwf.
      rewrite <-HL. by apply (Hwf k). }
    assert (bipolar p) as Hbp.
    { rewrite Forall_lookup in Hbip. by apply (Hbip k). }
    apply wrap64_bipolar; apply bipolar_lookup_total; try done; lia. }
  split; [exact Heq|]. rewrite Heq. split; [|split].
  - intros i j Hi Hj. by apply entry_tabulate.
  - intros i j. destruct (decide ((i < L)%nat ∧ (j < L)%nat)) as [[Hi Hj]|Hout].
    + rewrite !entry_tabulate by done. f_equal. apply trained_entry_sym.
    + rewrite !entry_tabulate_outside; [done|tauto|tauto].
  - intros i Hi. rewrite entry_tabulate by done. f_equal.
    unfold trained_entry. rewrite decide_True by done. ring.
Qed.

Lemma train_hopfield_hebbian_witness :
  rows (Ndarray2 3 [[1; -1; 1]; [1; 1; -1]]%Z) ≠ []
  ∧ wf_ndarray2 (Ndarray2 3 [[1; -1; 1]; [1; 1; -1]]%Z)
  ∧ Forall bipolar (rows (Ndarray2 3 [[1; -1; 1]; [1; 1; -1]]%Z))
  ∧ entry (train_hopfield (Ndarray2 3 [[1; -1; 1]; [1; 1; -1]]%Z) (frac 1 20))
      1 2 = Some (frac (-1) 30).
Proof.
  assert (rows (Ndarray2 3 [[1; -1; 1]; [1; 1; -1]]%Z) ≠ []) as H1 by done.
  assert (wf_ndarray2 (Ndarray2 3 [[1; -1; 1]; [1; 1; -1]]%Z)) as H2
    by (repeat constructor).
  assert (Forall bipolar (rows (Ndarray2 3 [[1; -1; 1]; [1; 1; -1]]%Z))) as H3
    by (repeat constructor; (by left) || (by right)).
  split; [exact H1|]. split; [exact H2|]. split; [exact H3|].
  destruct (train_hopfield_hebbian (Ndarray2 3 [[1; -1; 1]; [1; 1; -1]]%Z)
              (frac 1 20) 3 H1 H2 eq_refl H3) as (_ & Hentry & _).
  rewrite (Hentry 1%nat 2%nat) by lia. f_equal. compute_done.
Defined.

(** ** The asynchronous sweep *)

Lemma sweep_from_spec `{PyFloat F} (W : list (list F)) (done todo : list Z) :
  length (sweep_from W done todo) = (length done + length todo)%nat
  ∧ take (length done) (sweep_from W done todo) = done
  ∧ ∀ i, (length done ≤ i < length done + length todo)%nat →
      sweep_from W done todo !! i
      = Some (neuron W i (take i (sweep_from W done todo)
                          ++ drop (i - length done) todo)).
Proof.
  revert done. induction todo as [|t rest IH]; intros done.
  - simpl. split; [lia|]. split; [by rewrite firstn_all|]. intros i Hi. lia.
  - cbn [sweep_from].
    set (v := neuron W (length done) (done ++ t :: rest)).
    destruct (IH (done ++ [v])) as (Hlen & Htake & Hent).
    rewrite length_app in Hlen, Htake, Hent. simpl in Hlen, Htake, Hent.
    assert (take (length done) (sweep_from W (done ++ [v]) rest) = done) as Hd.
    { transitivity (take (length done)
                      (take (length done + 1) (sweep_from W (done ++ [v]) rest))).
      - rewrite take_take. f_equal. lia.
      - rewrite Htake. apply take_app_length. }
    split; [simpl; lia|]. split; [exact Hd|].
    intros i Hi. simpl in Hi.
    destruct (decide (i = length done)) as [->|Hne].
    + rewrite Nat.sub_diag, Hd. cbn [drop].
      rewrite <-(lookup_take_lt _ (length done + 1)) by lia.
      rewrite Htake. by rewrite list_lookup_middle.
    + rewrite Hent by lia. do 3 f_equal.
      replace (i - length done)%nat with (S (i - (length done + 1))) by lia.
      done.
Qed.

Lemma sweep_length `{PyFloat F} (W : list (list F)) (x : list Z) :
  length (sweep W x) = length x.
Proof. unfold sweep. by destruct (sweep_from_spec W [] x) as (-> & _). Qed.


(** ** The heap *)

Lemma py_bind_ok {A B : Type} (m : py A) (f : A → py B) (h h' : heap) (a : A) :
  m h = (Ok a, h') → (m ≫= f) h = f a h'.
Proof. intros Hm. unfold mbind, py_mbind. by rewrite Hm. Qed.

(** The float sign is stored as the integer sign. *)
Lemma sign_np_sign `{PyFloatLaws F} (q : F) :
  int_of_float (np_sign q) = Ok (sign q).
Proof.
  unfold np_sign, sign, int_of_float.
  destruct (decide (float_gt q (float_of_int 0)));
    [by rewrite float_value_of_int by lia|].
  destruct (decide (float_gt (float_of_int 0) q));
    by rewrite float_value_of_int by lia.
Qed.

Lemma neuron_update_ok `{PyFloatLaws F} (x : ref) (W : list (list F)) (i : nat)
    (h : heap) (xs : list Z) (row : list F) :
  h !! x = Some xs → W !! i = Some row → length row = length xs →
  (i < length xs)%nat →
  neuron_update x W i h = (Ok (), <[x := <[i := sign (dot row xs)]> xs]> h).
Proof.
  intros Hx Hrow Hlen Hi. unfold neuron_update.
  rewrite (py_bind_ok _ _ h h row) by (unfold lift, getrow; by rewrite Hrow).
  rewrite (py_bind_ok _ _ h h xs) by (unfold load; by rewrite Hx).
  rewrite (py_bind_ok _ _ h h (dot row xs))
    by (unfold lift, np_dot; by rewrite decide_True).
  rewrite (py_bind_ok _ _ h h (sign (dot row xs)))
    by (unfold lift; by rewrite sign_np_sign).
  unfold setitem. by rewrite Hx, decide_True by done.
Qed.

(** A well-shaped weight matrix for a state of [n] neurons. *)
Lemma square_row {F : Type} (W : list (list F)) (n i : nat) :
  length W = n → Forall (λ row, length row = n) W → (i < n)%nat →
  ∃ row, W !! i = Some row ∧ length row = n.
Proof.
  intros HW Hrows Hi.
  destruct (lookup_lt_is_Some_2 W i ltac:(lia)) as [row Hrow].
  exists row. split; [done|]. rewrite Forall_lookup in Hrows.
  by apply (Hrows i).
Qed.

(** The loop of [hopfield_step_async], from neuron [length done] on. *)
Lemma step_loop `{PyFloatLaws F} (x : ref) (W : list (list F))
    (done todo : list Z) (h : heap) :
  length W = (length done + length todo)%nat →
  Forall (λ row, length row = (length done + length todo)%nat) W →
  h !! x = Some (done ++ todo) →
  py_for (seq (length done) (length todo)) (λ i _, neuron_update x W i) () h
  = (Ok (), <[x := sweep_from W done todo]> h).
Proof.
  revert done h. induction todo as [|t rest IH]; intros done h HW Hrows Hx.
  - simpl. rewrite app_nil_r in Hx. by rewrite insert_id.
  - cbn [length seq py_for sweep_from].
    destruct (square_row W _ (length done) HW Hrows ltac:(simpl; lia))
      as (row & Hrow & Hlen).
    erewrite py_bind_ok; last first.
    { apply (neuron_update_ok x W (length done) h (done ++ t :: rest) row);
        [done|done| |].
      - by rewrite Hlen, length_app.
      - rewrite length_app. simpl. lia. }
    replace (<[length done := sign (dot row (done ++ t :: rest))]> (done ++ t :: rest))
      with ((done ++ [neuron W (length done) (done ++ t :: rest)]) ++ rest).
    2:{ rewrite <-(Nat.add_0_r (length done)) at 2. rewrite insert_app_r.
        simpl. rewrite <-app_assoc. simpl. unfold neuron.
        by rewrite (list_lookup_total_correct W (length done) row Hrow). }
    set (v := neuron W (length done) (done ++ t :: rest)).
    replace (S (length done)) with (length (done ++ [v]))
      by (rewrite length_app; simpl; lia).
    rewrite IH.
    + by rewrite insert_insert_eq.
    + rewrite HW, length_app. simpl. lia.
    + eapply Forall_impl; [exact Hrows|]. intros r Hr. simpl in Hr.
      rewrite Hr, length_app. simpl. lia.
    + by rewrite lookup_insert_eq.
Qed.

Lemma hopfield_step_async_ok `{PyFloatLaws F} (x : ref) (W : list (list F))
    (xs : list Z) (h : heap) :
  h !! x = Some xs → length W = length xs →
  Forall (λ row, length row = length xs) W →
  hopfield_step_async x W h = (Ok x, <[x := sweep W xs]> h).
Proof.
  intros Hx HW Hrows. unfold hopfield_step_async.
  rewrite (py_bind_ok _ _ h h (length xs))
    by (unfold py_len; by rewrite (py_bind_ok _ _ h h xs) by (unfold load; by rewrite Hx)).
  unfold py_range. rewrite Nat2Z.id.
  erewrite py_bind_ok; [done|].
  by apply (step_loop x W [] xs h).
Qed.

Lemma recall_loop `{PyFloatLaws F} (x : ref) (W : list (list F)) (l : list nat)
    (xs : list Z) (h : heap) :
  h !! x = Some xs → length W = length xs →
  Forall (λ row, length row = length xs) W →
  py_for l (λ _ x', hopfield_step_async x' W) x h
  = (Ok x, <[x := Nat.iter (length l) (sweep W) xs]> h).
Proof.
  revert xs h. induction l as [|i l IH]; intros xs h Hx HW Hrows.
  - simpl. by rewrite insert_id.
  - cbn [py_for length].
    rewrite (py_bind_ok _ _ h (<[x := sweep W xs]> h) x)
      by (by apply hopfield_step_async_ok).
    rewrite (IH (sweep W xs)).
    + by rewrite insert_insert_eq, Nat.iter_succ_r.
    + by rewrite lookup_insert_eq.
    + by rewrite sweep_length.
    + by rewrite sweep_length.
Qed.

Lemma recall_async_ok `{PyFloatLaws F} (pattern : ref) (W : list (list F))
    (steps : Z) (xs : list Z) (h : heap) :
  h !! pattern = Some xs → length W = length xs →
  Forall (λ row, length row = length xs) W →
  recall_async pattern W steps h
  = (Ok (fresh (dom h)),
     <[fresh (dom h) := Nat.iter (Z.to_nat steps) (sweep W) xs]> h).
Proof.
  intros Hx HW Hrows. unfold recall_async.
  rewrite (py_bind_ok _ _ h (<[fresh (dom h) := xs]> h) (fresh (dom h)))
    by (unfold ndarray_copy; by rewrite Hx).
  erewrite py_bind_ok; last first.
  { apply (recall_loop _ W _ xs); [by rewrite lookup_insert_eq|done|done]. }
  unfold py_range. by rewrite insert_insert_eq, length_seq.
Qed.

(** *** What a computation may write *)

Lemma writes_only_bind {A B : Type} (x : ref) (m : py A) (f : A → py B) :
  writes_only x m → (∀ a, writes_only x (f a)) → writes_only x (m ≫= f).
Proof.
  intros Hm Hf h l Hl. unfold mbind, py_mbind.
  specialize (Hm h l Hl). destruct (m h) as [[a|e] h']; simpl in *.
  - by rewrite Hf.
  - done.
Qed.

Lemma writes_only_ret {A : Type} (x : ref) (a : A) : writes_only x (mret a).
Proof. by intros h l Hl. Qed.

Lemma writes_only_lift {A : Type} (x : ref) (r : result A) :
  writes_only x (lift r).
Proof. by intros h l Hl. Qed.

Lemma writes_only_load (x y : ref) : writes_only x (load y).
Proof. intros h l Hl. unfold load. by destruct (h !! y). Qed.

Lemma writes_only_setitem (x : ref) (i : nat) (v : Z) :
  writes_only x (setitem x i v).
Proof.
  intros h l Hl. unfold setitem. destruct (h !! x) as [xs|]; [|done].
  destruct (decide (i < length xs)%nat); [|done]. simpl.
  by rewrite lookup_insert_ne.
Qed.

Lemma writes_only_for {S : Type} (x : ref) (l : list nat)
    (body : nat → S → py S) (s : S) :
  (∀ i s', writes_only x (body i s')) → writes_only x (py_for l body s).
Proof.
  intros Hbody. revert s. induction l as [|i l IH]; intros s; simpl.
  - apply writes_only_ret.
  - apply writes_only_bind; [apply Hbody|apply IH].
Qed.

Lemma writes_only_neuron_update `{PyFloat F} (x : ref) (W : list (list F))
    (i : nat) :
  writes_only x (neuron_update x W i).
Proof.
  unfold neuron_update.
  apply writes_only_bind; [apply writes_only_lift|]. intros row.
  apply writes_only_bind; [apply writes_only_load|]. intros xs.
  apply writes_only_bind; [apply writes_only_lift|]. intros d.
  apply writes_only_bind; [apply writes_only_lift|]. intros v.
  apply writes_only_setitem.
Qed.

Lemma writes_only_step `{PyFloat F} (x : ref) (W : list (list F)) :
  writes_only x (hopfield_step_async x W).
Proof.
  unfold hopfield_step_async, py_len.
  apply writes_only_bind.
  { apply writes_only_bind; [apply writes_only_load|]. intros xs.
    apply writes_only_ret. }
  intros n. apply writes_only_bind; [|intros; apply writes_only_ret].
  apply writes_only_for. intros i s'. apply writes_only_neuron_update.
Qed.

Lemma returns_bind_ret {A : Type} (x : ref) (m : py A) :
  returns x (m ≫= λ _, mret x).
Proof.
  intros h a. unfold mbind, py_mbind.
  destruct (m h) as [[a'|e] h']; simpl; [|done]. by intros [= ->].
Qed.

Lemma returns_step `{PyFloat F} (x : ref) (W : list (list F)) :
  returns x (hopfield_step_async x W).
Proof.
  unfold hopfield_step_async. intros h a. unfold mbind at 1, py_mbind at 1.
  destruct (py_len x h) as [[n|e] h']; simpl; [|done].
  apply returns_bind_ret.
Qed.

(** The loop of [recall_async] keeps working on the same array. *)
Lemma recall_loop_frame `{PyFloat F} (W : list (list F)) (l : list nat)
    (x : ref) :
  writes_only x (py_for l (λ _ x', hopfield_step_async x' W) x)
  ∧ returns x (py_for l (λ _ x', hopfield_step_async x' W) x).
Proof.
  induction l as [|i l [IHw IHr]]; simpl.
  - split; [apply writes_only_ret|]. intros h a. simpl. by intros [= ->].
  - split.
    + intros h k Hk. unfold mbind, py_mbind.
      pose proof (writes_only_step x W h k Hk) as Hw.
      pose proof (returns_step x W h) as Hr.
      destruct (hopfield_step_async x W h) as [[a|e] h']; simpl in *; [|done].
      rewrite (Hr a eq_refl). by rewrite IHw.
    + intros h a. unfold mbind, py_mbind.
      pose proof (returns_step x W h) as Hr.
      destruct (hopfield_step_async x W h) as [[a'|e] h']; simpl in *; [|done].
      rewrite (Hr a' eq_refl). apply IHr.
Qed.


Lemma recall_async_unfold `{PyFloat F} (pattern : ref) (W : list (list F))
    (steps : Z) (h : heap) :
  recall_async pattern W steps h
  = match h !! pattern with
    | Some xs =>
        (py_for (py_range steps) (λ _ x', hopfield_step_async x' W)
                (fresh (dom h)) ≫= λ x, mret x)
          (<[fresh (dom h) := xs]> h)
    | None => (Raise Dangling, h)
    end.
Proof.
  unfold recall_async, ndarray_copy. unfold mbind at 1, py_mbind at 1.
  by destruct (h !! pattern).
Qed.

(** C10.  Whatever the query, the weight matrix and the step count, and
    whether the call returns or raises, [recall_async] leaves the
    caller's pattern as it was, and every other array of the caller as
    well; what it returns is a new array, the copy that the sweeps have
    updated. *)
Theorem recall_async_keeps_pattern `{PyFloat F} (pattern : ref)
    (W : list (list F)) (steps : Z) (h : heap) :
  (recall_async pattern W steps h).2 !! pattern = h !! pattern
  ∧ h ⊆ (recall_async pattern W steps h).2
  ∧ match (recall_async pattern W steps h).1 with
    | Ok x => x ≠ pattern ∧ h !! x = None
    | Raise _ => True
    end.
Proof.
  rewrite recall_async_unfold.
  destruct (h !! pattern) as [xs|] eqn:Hx; [|done].
  set (r := fresh (dom h)).
  assert (h !! r = None) as Hr by (apply not_elem_of_dom, is_fresh).
  assert (r ≠ pattern) as Hne by congruence.
  destruct (recall_loop_frame W (py_range steps) r) as [Hw Hret].
  set (m := py_for (py_range steps) (λ _ x', hopfield_step_async x' W) r) in *.
  assert (∀ l, l ≠ r → ((m ≫= λ x, mret x) (<[r := xs]> h)).2 !! l = h !! l)
    as Hframe.
  { intros l Hl. unfold mbind, py_mbind.
    specialize (Hw (<[r := xs]> h) l Hl).
    destruct (m (<[r := xs]> h)) as [[a|e] h']; simpl in *;
      by rewrite Hw, lookup_insert_ne. }
  split; [by rewrite Hframe|]. split.
  - apply map_subseteq_spec. intros l v Hl.
    rewrite Hframe by congruence. done.
  - unfold mbind, py_mbind. specialize (Hret (<[r := xs]> h)).
    destruct (m (<[r := xs]> h)) as [[a|e] h']; simpl in *; [|done].
    by rewrite (Hret a eq_refl).
Qed.


(** The single buffer matters: on a pair of coupled neurons the second
    update sees the first, and a double-buffered sweep would not. *)
Lemma sweep_is_not_synchronous :
  sweep Demo.W_pair Demo.x_pair = [-1; -1]%Z
  ∧ sweep_synchronous Demo.W_pair Demo.x_pair = [-1; 1]%Z
  ∧ sweep Demo.W_pair64 Demo.x_pair = [-1; -1]%Z
  ∧ sweep_synchronous Demo.W_pair64 Demo.x_pair = [-1; 1]%Z.
Proof. repeat split; compute_done. Qed.

(** Rounding decides the sign.  On the row [0.1, 0.2, -0.3] and the
    state [1, 1, 1] the exact dot product is [0], with sign [0]; added
    from left to right in binary64 it is positive, with sign [1]. *)
Lemma rounding_decides_the_sign :
  neuron [[frac 1 10; frac 2 10; frac (-3) 10]] 0 [1; 1; 1]%Z = 0%Z
  ∧ neuron [[float_frac 1 10; float_frac 2 10; float_frac (-3) 10 : float]] 0
      [1; 1; 1]%Z = 1%Z.
Proof. split; compute_done. Qed.

(** [hopfield_step_async] alone does write into the array it is given;
    it is the copy in [recall_async] that protects the caller. *)
Lemma hopfield_step_async_in_place :
  hopfield_step_async 1 Demo.W Demo.caller_heap
  = (Ok 1%positive, {[ 1%positive := [0; -1; 1]%Z ]}).
Proof. compute_done. Qed.

(** C8.  [np.sign] maps [0] to [0].  In the demo network, trained from
    bipolar patterns, the dot product for neuron [0] on the bipolar query
    is exactly zero, the update writes [0] into [x[0]], and the result of
    a sweep and of a recall is not a bipolar vector. *)
Theorem sign_zero_breaks_bipolar :
  np_sign 0 = 0
  ∧ Forall bipolar (rows Demo.patterns) ∧ bipolar Demo.query
  ∧ dot (Demo.W !!! 0%nat) Demo.query = 0
  ∧ neuron_update 1 Demo.W 0 Demo.caller_heap
    = (Ok (), {[ 1%positive := [0; -1; 1]%Z ]})
  ∧ hopfield_step_async 1 Demo.W Demo.caller_heap
    = (Ok 1%positive, {[ 1%positive := [0; -1; 1]%Z ]})
  ∧ recall_async 1 Demo.W 1 Demo.caller_heap
    = (Ok 2%positive, <[ 2%positive := [0; -1; 1]%Z ]> Demo.caller_heap)
  ∧ ¬ bipolar [0; -1; 1]%Z.
Proof.
  unfold bipolar. repeat (split; [compute_done|]).
  intros H. apply Forall_cons in H as [[H|H] _]; discriminate H.
Qed.

(** * Further properties of the code *)

(** ** The time grid of the integrator *)

Lemma floor_bounds (q : Qc) : of_int (floor q) ≤ q ∧ q < of_int (floor q) + 1.
Proof.
  split.
  - unfold Qcle, of_int, floor. simpl. apply Qfloor_le.
  - unfold of_int. rewrite <-Z2Qc_inj_1, <-Z2Qc_inj_add.
    unfold Qclt, floor. simpl. apply Qlt_floor.
Qed.

Lemma py_int_nonneg (q : Qc) : 0 ≤ q → (0 ≤ py_int q)%Z.
Proof.
  destruct q as [[n d] Hc]. unfold py_int, Qcle, Qle; simpl.
  intros Hn. apply Z.quot_pos; lia.
Qed.

Lemma euler_point_time (f : deriv Qc) (dt I_ext y0 t0 : Qc) (k : nat) :
  (euler_point f dt I_ext y0 t0 k).2 = t0 + of_int (Z.of_nat k) * dt.
Proof.
  induction k as [|k IH].
  - cbn [euler_point snd]. change (Z.of_nat 0) with 0%Z. unfold of_int.
    rewrite Z2Qc_inj_0. ring.
  - rewrite of_nat_succ, euler_point_succ. cbn [snd]. rewrite IH. ring.
Qed.

Lemma euler_times_last `{PyFloat F} (f : deriv F) (dt I_ext y0 t0 : F)
    (n : nat) :
  last (euler_times f dt I_ext y0 t0 n)
  = Some (euler_point f dt I_ext y0 t0 n).2.
Proof.
  unfold euler_times. rewrite seq_S, fmap_app.
  change ((λ k, (euler_point f dt I_ext y0 t0 k).2) <$> [(0 + n)%nat])
    with [(euler_point f dt I_ext y0 t0 n).2].
  by rewrite last_snoc.
Qed.

(** X1.  In exact arithmetic, for [t0 <= tf] and a positive step, the
    times that [euler_method] returns are [t0 + k * dt], and the last of
    them is at most [tf] and less than one step short of it. *)
Theorem euler_method_time_grid (f : deriv Qc) (y0 t0 tf dt I_ext : Qc) :
  t0 ≤ tf → 0 < dt →
  ∃ ts ys,
    euler_method f y0 t0 tf dt I_ext = Ok (ts, ys)
    ∧ (∀ k t, ts !! k = Some t → t = t0 + of_int (Z.of_nat k) * dt)
    ∧ ∃ t_last, last ts = Some t_last ∧ t_last ≤ tf ∧ tf < t_last + dt.
Proof.
  intros Hle Hdt.
  assert (dt ≠ 0) as Hnz by (intros ->; by apply (Qclt_not_eq 0 0)).
  set (q := (tf - t0) / dt).
  assert (0 ≤ q) as Hq by (apply Qcdiv_nonneg; [by apply Qcle_0_minus|done]).
  assert (q * dt = tf - t0) as Hqdt by (unfold q; by field).
  eexists _, _. split; [by apply euler_method_run|]. fold q. split.
  - intros k t Hk.
    pose proof (lookup_lt_Some _ _ _ Hk) as Hlt.
    rewrite euler_times_length in Hlt.
    rewrite euler_times_lookup in Hk by lia. simplify_eq.
    apply euler_point_time.
  - eexists. split; [apply euler_times_last|].
    rewrite euler_point_time, Z2Nat.id by (by apply py_int_nonneg).
    rewrite py_int_floor by done.
    destruct (floor_bounds q) as [Hlo Hhi]. split.
    + apply (Qcplus_le_mono_l _ _ (- t0)).
      replace (- t0 + (t0 + of_int (floor q) * dt)) with (of_int (floor q) * dt) by ring.
      replace (- t0 + tf) with (q * dt) by (rewrite Hqdt; ring).
      by apply Qcmult_le_mono_pos_r.
    + apply (Qcplus_lt_mono_l _ _ (- t0)).
      replace (- t0 + (t0 + of_int (floor q) * dt + dt))
        with ((of_int (floor q) + 1) * dt) by ring.
      replace (- t0 + tf) with (q * dt) by (rewrite Hqdt; ring).
      by apply Qcmult_lt_mono_pos_r.
Qed.

Lemma euler_method_time_grid_witness :
  (0 : Qc) ≤ 1 ∧ 0 < frac 3 10
  ∧ ∃ ts ys,
      euler_method membrane_potential (of_int (-70)) 0 1 (frac 3 10) (of_int 9)
      = Ok (ts, ys)
      ∧ ∃ t_last, last ts = Some t_last ∧ t_last ≤ 1 ∧ 1 < t_last + frac 3 10.
Proof.
  assert ((0 : Qc) ≤ 1) as H1 by compute_done.
  assert (0 < frac 3 10) as H2 by compute_done.
  split; [exact H1|]. split; [exact H2|].
  destruct (euler_method_time_grid membrane_potential (of_int (-70))
              0 1 (frac 3 10) (of_int 9) H1 H2)
    as (ts & ys & Hrun & _ & Hlast).
  exists ts, ys. split; [exact Hrun|exact Hlast].
Defined.

(** ** The membrane potential of the simulations *)

Lemma membrane_step (dt I_ext v t : Qc) :
  v + dt * membrane_potential v t I_ext - equilibrium I_ext
  = (v - equilibrium I_ext) * (1 - dt / of_int 10).
Proof.
  unfold membrane_potential, membrane_potential_with, equilibrium.
  exact_arith. field. compute_done.
Qed.

Lemma membrane_point_closed (dt I_ext y0 t0 : Qc) (k : nat) :
  (euler_point membrane_potential dt I_ext y0 t0 k).1
  = equilibrium I_ext + (y0 - equilibrium I_ext) * (1 - dt / of_int 10) ^ k.
Proof.
  induction k as [|k IH].
  - cbn [euler_point fst Qcpower]. ring.
  - rewrite euler_point_succ. cbn [fst Qcpower].
    set (v := (euler_point membrane_potential dt I_ext y0 t0 k).1) in *.
    set (t := (euler_point membrane_potential dt I_ext y0 t0 k).2) in *.
    replace (v + dt * membrane_potential v t I_ext)
      with (equilibrium I_ext
            + (v + dt * membrane_potential v t I_ext - equilibrium I_ext)) by ring.
    rewrite membrane_step, IH. ring.
Qed.

(** X2.  In exact arithmetic, driven by [membrane_potential] with a
    constant current, the [k]-th value of [euler_method] is
    [(I_ext - 65) + (y0 - (I_ext - 65)) * (1 - dt / 10) ^ k]; a run that
    starts at [I_ext - 65] stays there. *)
Theorem membrane_potential_closed_form (y0 t0 tf dt I_ext : Qc) :
  dt ≠ 0 →
  ∃ ts ys,
    euler_method membrane_potential y0 t0 tf dt I_ext = Ok (ts, ys)
    ∧ (∀ k v, ys !! k = Some v →
         v = (I_ext - of_int 65)
             + (y0 - (I_ext - of_int 65)) * (1 - dt / of_int 10) ^ k)
    ∧ (y0 = I_ext - of_int 65 → Forall (λ v, v = y0) ys).
Proof.
  intros Hdt. eexists _, _. split; [by apply euler_method_run|].
  assert (equilibrium I_ext = I_ext - of_int 65) as Heq.
  { unfold equilibrium.
    replace (of_int (-65)) with (- of_int 65) by compute_done. ring. }
  assert (∀ k v,
    euler_values membrane_potential dt I_ext y0 t0
      (Z.to_nat (py_int ((tf - t0) / dt))) !! k = Some v →
    v = I_ext - of_int 65
        + (y0 - (I_ext - of_int 65)) * (1 - dt / of_int 10) ^ k) as Hclosed.
  { intros k v Hk.
    pose proof (lookup_lt_Some _ _ _ Hk) as Hlt.
    rewrite euler_values_length in Hlt.
    rewrite euler_values_lookup in Hk by lia. simplify_eq.
    rewrite membrane_point_closed. by rewrite Heq. }
  split; [exact Hclosed|].
  intros Hy0. apply Forall_lookup. intros k v Hk.
  rewrite (Hclosed k v Hk), <-Hy0. ring.
Qed.

Lemma membrane_potential_closed_form_witness :
  frac 1 10 ≠ 0
  ∧ ∃ ts ys,
      euler_method membrane_potential (of_int (-70)) 0 1 (frac 1 10) (of_int 9)
      = Ok (ts, ys)
      ∧ (of_int (-70) = of_int 9 - of_int 65 → Forall (λ v, v = of_int (-70)) ys).
Proof.
  assert (frac 1 10 ≠ 0) as H1 by compute_done.
  split; [exact H1|].
  destruct (membrane_potential_closed_form (of_int (-70)) 0 1 (frac 1 10)
              (of_int 9) H1) as (ts & ys & Hrun & _ & Hrest).
  exists ts, ys. split; [exact Hrun|exact Hrest].
Defined.




(** ** The integrator with hysteresis *)

(** Rounding decides the comparison.  The stimulus [0.07] gives the current
    [0.07 * 10], which is [0.7] in exact arithmetic and
    [0.7000000000000001] in binary64: against the threshold [0.7] the
    pass is held in the first and driven in the second. *)
Lemma rounded_current_passes_threshold :
  ¬ float_gt (corriente [frac 7 100] 0) (frac 7 10)
  ∧ float_gt (corriente [Demo.f0_07] 0) Demo.f0_7.
Proof. split; [compute_done|vm_compute; reflexivity]. Qed.

(** X4.  Whenever [metodoEulerHisteresis] has a step count [n], it
    returns [n + 1] times and values; every time is the one before plus
    the step, and the values follow from one another alone: a pass
    whose current exceeds the threshold adds the Euler increment to the
    value before it, and any other pass repeats the value before it.
    Only the first pass differs: when it is not driven it returns the
    [voltajeAnterior] argument.  The current of pass [k] is the float
    product [estimulos[k] * 10], or [0] past the stimuli. *)
Theorem metodoEulerHisteresis_recurrence `{PyFloat F} (funcion : deriv F)
    (v0 t0 tf dt : F) (estimulos : list F) (umbral anterior : F) (n : Z) :
  step_count t0 tf dt = Ok n →
  ∃ ts vs,
    metodoEulerHisteresis funcion v0 t0 tf dt estimulos umbral anterior
    = Ok (ts, vs)
    ∧ length ts = S (Z.to_nat n) ∧ length vs = S (Z.to_nat n)
    ∧ (∀ k t t', ts !! k = Some t → ts !! S k = Some t' → t' = t ⊕ dt)
    ∧ (∀ v1, vs !! 1%nat = Some v1 →
         v1 = if decide (float_gt (corriente estimulos 0) umbral)
              then v0 ⊕ funcion v0 t0 (corriente estimulos 0) ⊗ dt
              else anterior)
    ∧ (∀ k v t v', (1 ≤ k)%nat →
         vs !! k = Some v → ts !! k = Some t → vs !! S k = Some v' →
         v' = if decide (float_gt (corriente estimulos k) umbral)
              then v ⊕ funcion v t (corriente estimulos k) ⊗ dt
              else v).
Proof.
  intros Hn. eexists _, _.
  split; [by apply metodoEulerHisteresis_steps|].
  rewrite !length_fmap, !length_seq.
  split; [done|]. split; [done|]. split; [|split].
  - intros k t t' [_ ->]%lookup_fmap_seq [_ ->]%lookup_fmap_seq.
    apply histeresis_point_tiempo.
  - intros v1 [_ ->]%lookup_fmap_seq. apply histeresis_point_first.
  - intros k v t v' Hk [_ ->]%lookup_fmap_seq [_ ->]%lookup_fmap_seq
      [_ ->]%lookup_fmap_seq.
    destruct k as [|k]; [lia|]. apply histeresis_point_next.
Qed.

Lemma metodoEulerHisteresis_recurrence_witness :
  step_count (float_of_int 0) (float_of_int 1) Demo.f0_5 = Ok 2%Z
  ∧ ∃ ts vs,
      metodoEulerHisteresis potencialMembrana (float_of_int (-65))
        (float_of_int 0) (float_of_int 1) Demo.f0_5 [Demo.f0_07; Demo.f0_07]
        Demo.f0_7 (float_of_int (-65)) = Ok (ts, vs)
      ∧ length ts = 3%nat ∧ length vs = 3%nat.
Proof.
  assert (step_count (float_of_int 0) (float_of_int 1) Demo.f0_5 = Ok 2%Z)
    as H1 by (vm_compute; reflexivity).
  split; [exact H1|].
  destruct (metodoEulerHisteresis_recurrence potencialMembrana
              (float_of_int (-65)) (float_of_int 0) (float_of_int 1) Demo.f0_5
              [Demo.f0_07; Demo.f0_07] Demo.f0_7 (float_of_int (-65)) 2 H1)
    as (ts & vs & Hrun & Hlt & Hlv & _).
  exists ts, vs. split; [exact Hrun|]. split; [exact Hlt|exact Hlv].
Defined.

Lemma histeresis_point_driven `{PyFloatLaws F} (funcion : deriv F) (dt : F)
    (estimulos : list F) (umbral v0 t0 anterior c : F) (n k : nat) :
  (∀ i, (i < n)%nat → corriente estimulos i = c) → float_gt c umbral →
  (k ≤ n)%nat →
  (histeresis_point funcion dt estimulos umbral v0 t0 anterior k).1
  = euler_point funcion dt c v0 t0 k.
Proof.
  intros Hc Hlt. induction k as [|k IH]; intros Hk; [done|].
  cbn [histeresis_point euler_point fst snd].
  rewrite Hc by lia. unfold paso_histeresis. rewrite decide_True by done.
  cbn [fst snd].
  destruct (histeresis_point funcion dt estimulos umbral v0 t0 anterior k)
    as [[v t] a]. rewrite <-IH by lia. cbn [fst snd].
  by rewrite (float_mul_comm dt).
Qed.

(** X5.  When the stimulus is the same value [s] at every pass of the
    run and the float product [s * 10] exceeds the threshold,
    [metodoEulerHisteresis] returns what [euler_method] returns for the
    constant current [s * 10], and raises what it raises. *)
Theorem metodoEulerHisteresis_driven `{PyFloatLaws F} (funcion : deriv F)
    (v0 t0 tf dt : F) (estimulos : list F) (umbral anterior s : F) :
  (∀ n i, step_count t0 tf dt = Ok n → (i < Z.to_nat n)%nat →
     estimulos !! i = Some s) →
  float_gt (s ⊗ float_of_int 10) umbral →
  metodoEulerHisteresis funcion v0 t0 tf dt estimulos umbral anterior
  = euler_method funcion v0 t0 tf dt (s ⊗ float_of_int 10).
Proof.
  intros Hs Hlt. destruct (step_count t0 tf dt) as [n|e] eqn:Hn.
  2:{ by rewrite (euler_method_raises _ _ _ _ _ _ e),
        (metodoEulerHisteresis_raises _ _ _ _ _ _ _ _ e). }
  rewrite (metodoEulerHisteresis_steps _ _ _ _ _ _ _ _ n) by done.
  rewrite (euler_method_steps _ _ _ _ _ _ n) by done.
  unfold euler_times, euler_values.
  assert (∀ i, (i < Z.to_nat n)%nat →
            corriente estimulos i = s ⊗ float_of_int 10) as Hc.
  { intros i Hi. unfold corriente. rewrite (Hs n i eq_refl Hi).
    rewrite decide_True; [done|]. by eapply lookup_lt_Some, Hs. }
  do 2 f_equal; apply list_fmap_ext; intros j k Hk;
    apply lookup_seq in Hk as [-> Hk]; cbn [Nat.add];
    by rewrite (histeresis_point_driven funcion dt estimulos umbral v0 t0
                  anterior (s ⊗ float_of_int 10) _ j Hc Hlt) by lia.
Qed.

Lemma metodoEulerHisteresis_driven_witness :
  (∀ n i, step_count (float_of_int 0) (float_of_int 1) Demo.f0_5 = Ok n →
     (i < Z.to_nat n)%nat →
     [Demo.f0_07; Demo.f0_07] !! i = Some Demo.f0_07)
  ∧ float_gt (Demo.f0_07 ⊗ float_of_int 10) Demo.f0_7
  ∧ metodoEulerHisteresis potencialMembrana (float_of_int (-65))
      (float_of_int 0) (float_of_int 1) Demo.f0_5 [Demo.f0_07; Demo.f0_07]
      Demo.f0_7 (float_of_int (-65))
    = euler_method potencialMembrana (float_of_int (-65)) (float_of_int 0)
        (float_of_int 1) Demo.f0_5 (Demo.f0_07 ⊗ float_of_int 10).
Proof.
  assert (step_count (float_of_int 0) (float_of_int 1) Demo.f0_5 = Ok 2%Z)
    as Hcount by (vm_compute; reflexivity).
  assert (∀ n i, step_count (float_of_int 0) (float_of_int 1) Demo.f0_5 = Ok n →
     (i < Z.to_nat n)%nat →
     [Demo.f0_07; Demo.f0_07] !! i = Some Demo.f0_07) as H1.
  { intros n i Hn. rewrite Hcount in Hn. injection Hn as <-.
    destruct i as [|[|i]]; [done|done|]. intros Hi. exfalso. lia. }
  assert (float_gt (Demo.f0_07 ⊗ float_of_int 10) Demo.f0_7) as H2
    by (vm_compute; reflexivity).
  split; [exact H1|]. split; [exact H2|].
  exact (metodoEulerHisteresis_driven potencialMembrana (float_of_int (-65))
           (float_of_int 0) (float_of_int 1) Demo.f0_5 [Demo.f0_07; Demo.f0_07]
           Demo.f0_7 (float_of_int (-65)) Demo.f0_07 H1 H2).
Defined.

(** X6.  With a threshold that [0] does not exceed, once the stimuli
    are used up [metodoEulerHisteresis] holds its value: for every
    [k >= max(1, len(estimulos))] the value at index [k + 1] is the
    value at index [k]. *)
Theorem metodoEulerHisteresis_holds_after_stimuli `{PyFloat F}
    (funcion : deriv F) (v0 t0 tf dt : F) (estimulos : list F)
    (umbral anterior : F) (n : Z) :
  step_count t0 tf dt = Ok n → ¬ float_gt (float_of_int 0) umbral →
  ∃ ts vs,
    metodoEulerHisteresis funcion v0 t0 tf dt estimulos umbral anterior
    = Ok (ts, vs)
    ∧ ∀ k v', (1 ≤ k)%nat → (length estimulos ≤ k)%nat →
        vs !! S k = Some v' → vs !! k = Some v'.
Proof.
  intros Hn Humbral. eexists _, _.
  split; [by apply metodoEulerHisteresis_steps|].
  intros k v' Hk Hlen Hv'. pose proof Hv' as [HSk ->]%lookup_fmap_seq.
  destruct k as [|k]; [lia|].
  rewrite list_lookup_fmap, lookup_seq_lt by lia.
  cbn [fmap option_fmap option_map Nat.add]. f_equal.
  rewrite histeresis_point_next.
  assert (corriente estimulos (S k) = float_of_int 0) as ->.
  { unfold corriente. by rewrite decide_False by lia. }
  by rewrite decide_False.
Qed.

Lemma metodoEulerHisteresis_holds_after_stimuli_witness :
  step_count (float_of_int 0) (float_of_int 100) Demo.f0_1 = Ok 1000%Z
  ∧ ¬ float_gt (float_of_int 0) Demo.f0_5
  ∧ ∃ ts vs,
      metodoEulerHisteresis potencialMembrana (float_of_int (-65))
        (float_of_int 0) (float_of_int 100) Demo.f0_1
        [Demo.f0_07; Demo.f0_7] Demo.f0_5 (float_of_int (-65)) = Ok (ts, vs)
      ∧ ∀ k v', (1 ≤ k)%nat → (length [Demo.f0_07; Demo.f0_7] ≤ k)%nat →
          vs !! S k = Some v' → vs !! k = Some v'.
Proof.
  assert (step_count (float_of_int 0) (float_of_int 100) Demo.f0_1
          = Ok 1000%Z) as H1 by (vm_compute; reflexivity).
  assert (¬ float_gt (float_of_int 0) Demo.f0_5) as H2 by compute_done.
  split; [exact H1|]. split; [exact H2|].
  exact (metodoEulerHisteresis_holds_after_stimuli potencialMembrana
           (float_of_int (-65)) (float_of_int 0) (float_of_int 100) Demo.f0_1
           [Demo.f0_07; Demo.f0_7] Demo.f0_5 (float_of_int (-65)) 1000 H1 H2).
Defined.

(** ** The selectors, once more *)

Lemma maximisers_NoDup (stimuli : list Qc) : NoDup (maximisers stimuli).
Proof. unfold maximisers. apply NoDup_filter, NoDup_seq. Qed.

Lemma attains_max_value (stimuli : list Qc) (i : nat) :
  i ∈ maximisers stimuli →
  ∃ v, stimuli !! i = Some v ∧ ∀ j w, stimuli !! j = Some w → w ≤ v.
Proof.
  intros (v & Hv & Hmax)%elem_of_maximisers. exists v. split; [done|].
  intros j w Hw. apply Hmax. by eapply list_elem_of_lookup_2.
Qed.

(** What the two selectors return on a non-empty vector. *)
Lemma selectors_cases (stimuli : list Qc) :
  stimuli ≠ [] →
  ((2 ≤ length (maximisers stimuli))%nat
   ∧ select_stimulus stimuli = Ok (Indices (maximisers stimuli))
   ∧ select_stimulus_no_winner stimuli = Ok NoSelection)
  ∨ (∃ i, maximisers stimuli = [i]
          ∧ select_stimulus stimuli = Ok (Index i)
          ∧ select_stimulus_no_winner stimuli = Ok (Index i)).
Proof.
  intros Hne. destruct (selectors_maximisers stimuli Hne) as [-> ->].
  pose proof (maximisers_nonempty stimuli Hne) as HM.
  destruct (decide (1 < length (maximisers stimuli))%nat) as [Hlen|Hlen].
  - left. split; [lia|done].
  - right. destruct (maximisers stimuli) as [|i [|j l]]; [done| |simpl in *; lia].
    by exists i.
Qed.

(** X7.  [select_stimulus], [select_stimulus_no_winner], [motor_scheme]
    and [hysteresis] raise [ValueError] on an empty stimulus vector and
    nothing on any other: there they return, and [select_stimulus] never
    returns [None]. *)
Theorem stimulus_functions_raise_on_empty_only (stimuli : list Qc)
    (prev thr : Qc) :
  (stimuli = [] →
     select_stimulus stimuli = Raise ValueError
     ∧ select_stimulus_no_winner stimuli = Raise ValueError
     ∧ motor_scheme stimuli = Raise ValueError
     ∧ hysteresis stimuli prev thr = Raise ValueError)
  ∧ (stimuli ≠ [] →
     (∃ sel, select_stimulus stimuli = Ok sel ∧ sel ≠ NoSelection)
     ∧ (∃ sel, select_stimulus_no_winner stimuli = Ok sel)
     ∧ (∃ d, motor_scheme stimuli = Ok d)
     ∧ (∃ v, hysteresis stimuli prev thr = Ok v)).
Proof.
  split; [by intros ->|]. intros Hne. split; [|split; [|split]].
  - destruct (selectors_cases stimuli Hne) as [(_ & -> & _)|(i & _ & -> & _)];
      by eexists.
  - destruct (selectors_cases stimuli Hne) as [(_ & _ & ->)|(i & _ & _ & ->)];
      by eexists.
  - unfold motor_scheme.
    destruct (selectors_cases stimuli Hne) as [(_ & -> & _)|(i & _ & -> & _)].
    + eexists. cbn [mbind result_mbind result_bind].
      apply motor_direction_indices. by apply maximisers_nonempty.
    + by eexists.
  - destruct (py_max_is_maximum stimuli Hne) as (m & Hm & _).
    unfold hysteresis. rewrite Hm. cbn [mbind result_mbind result_bind].
    destruct (decide (thr < m)); by eexists.
Qed.

Lemma stimulus_functions_raise_on_empty_only_witness :
  stimuli_1 ≠ [] ∧ ∃ d, motor_scheme stimuli_1 = Ok d.
Proof.
  assert (stimuli_1 ≠ []) as H1 by done.
  split; [exact H1|].
  destruct (stimulus_functions_raise_on_empty_only stimuli_1 0 0)
    as (_ & Hok).
  destruct (Hok H1) as (_ & _ & Hmotor & _). exact Hmotor.
Defined.

(** X8.  On every input, [select_stimulus_no_winner] does what
    [select_stimulus] does and then replaces a list of tied indices by
    [None]; errors and single indices pass unchanged. *)
Theorem no_winner_is_select_without_ties (stimuli : list Qc) :
  select_stimulus_no_winner stimuli
  = (sel ← select_stimulus stimuli; Ok (reject_ties sel)).
Proof.
  unfold select_stimulus_no_winner, select_stimulus.
  destruct (py_max stimuli) as [m|e]; [|done].
  cbn [mbind result_mbind result_bind].
  destruct (decide (1 < length (max_indices stimuli m))%nat); [done|].
  by destruct (first_item (max_indices stimuli m)).
Qed.

(** X9.  [select_stimulus] returns the single index [i] exactly when the
    stimulus at [i] is strictly greater than every other stimulus. *)
Theorem select_stimulus_single_winner (stimuli : list Qc) (i : nat) :
  select_stimulus stimuli = Ok (Index i)
  ↔ ∃ v, stimuli !! i = Some v
         ∧ ∀ j w, j ≠ i → stimuli !! j = Some w → w < v.
Proof.
  split.
  - intros Hsel.
    assert (stimuli ≠ []) as Hne by (by intros ->).
    destruct (selectors_cases stimuli Hne) as [(_ & Hs & _)|(i' & HM & Hs & _)];
      rewrite Hs in Hsel; [done|]. simplify_eq.
    assert (i ∈ maximisers stimuli) as Hi by (rewrite HM; by left).
    destruct (attains_max_value stimuli i Hi) as (v & Hv & Hmax).
    exists v. split; [done|]. intros j w Hj Hw.
    destruct (Qcle_lt_or_eq _ _ (Hmax j w Hw)) as [Hlt| ->]; [done|].
    exfalso. apply Hj.
    assert (j ∈ maximisers stimuli) as Hjm.
    { apply elem_of_maximisers. exists v. split; [done|].
      intros w' Hw'. apply list_elem_of_lookup in Hw' as [k Hk].
      by apply (Hmax k). }
    rewrite HM in Hjm. by apply list_elem_of_singleton in Hjm.
  - intros (v & Hv & Hstrict).
    assert (stimuli ≠ []) as Hne by (by intros ->).
    assert (∀ j, j ∈ maximisers stimuli → j = i) as Honly.
    { intros j Hj. destruct (decide (j = i)) as [|Hji]; [done|]. exfalso.
      destruct (attains_max_value stimuli j Hj) as (w & Hw & Hmax).
      apply (Qclt_not_le _ _ (Hstrict j w Hji Hw)). by apply (Hmax i). }
    destruct (selectors_cases stimuli Hne) as [(Hlen & _)|(i' & HM & Hs & _)].
    + exfalso. pose proof (maximisers_NoDup stimuli) as Hnd.
      destruct (maximisers stimuli) as [|a [|b l]]; [simpl in Hlen; lia..|].
      apply NoDup_cons in Hnd as [Hab _]. apply Hab.
      rewrite (Honly a) by (by left).
      rewrite (Honly b) by (right; by left). by left.
    + rewrite Hs. do 2 f_equal. apply Honly. rewrite HM. by left.
Qed.

(** X12.  [hysteresis] returns either the maximum stimulus, and then it
    exceeds the threshold, or the previous output; so an output above
    the threshold stays above it. *)
Theorem hysteresis_latches (stimuli : list Qc) (prev thr v : Qc) :
  hysteresis stimuli prev thr = Ok v →
  (v = prev ∨ (is_maximum stimuli v ∧ thr < v)) ∧ (thr < prev → thr < v).
Proof.
  intros Hh.
  assert (stimuli ≠ []) as Hne by (by intros ->).
  destruct (py_max_is_maximum stimuli Hne) as (m & Hm & Hmax).
  unfold hysteresis in Hh. rewrite Hm in Hh.
  cbn [mbind result_mbind result_bind] in Hh.
  destruct (decide (thr < m)); simplify_eq; split; auto.
Qed.

Lemma hysteresis_latches_witness :
  hysteresis stimuli_4 previous_output threshold = Ok previous_output
  ∧ (previous_output = previous_output
     ∨ (is_maximum stimuli_4 previous_output ∧ threshold < previous_output)).
Proof.
  assert (hysteresis stimuli_4 previous_output threshold = Ok previous_output)
    as H1 by compute_done.
  split; [exact H1|].
  exact (proj1 (hysteresis_latches stimuli_4 previous_output threshold
                  previous_output H1)).
Defined.

Lemma select_stimulus_single_winner_witness :
  select_stimulus stimuli_1 = Ok (Index 8)
  ∧ ∃ v, stimuli_1 !! 8%nat = Some v
         ∧ ∀ j w, j ≠ 8%nat → stimuli_1 !! j = Some w → w < v.
Proof.
  assert (select_stimulus stimuli_1 = Ok (Index 8)) as H1 by compute_done.
  split; [exact H1|].
  exact (proj1 (select_stimulus_single_winner stimuli_1 8) H1).
Defined.

(** ** The motor scheme, once more *)

Lemma average_singleton (x : Qc) : average [x] = x.
Proof.
  unfold average. cbn [foldr length].
  replace (of_int (Z.of_nat 1)) with (1 : Qc) by compute_done. field.
  compute_done.
Qed.

(** In both branches [motor_scheme] returns the average offset of the
    maximising indices. *)
Lemma motor_scheme_maximisers (stimuli : list Qc) :
  stimuli ≠ [] →
  motor_scheme stimuli
  = Ok (average (offset_from_centre (length stimuli) <$> maximisers stimuli)).
Proof.
  intros Hne. unfold motor_scheme.
  destruct (selectors_cases stimuli Hne) as [(_ & -> & _)|(i & -> & -> & _)];
    cbn [mbind result_mbind result_bind].
  - apply motor_direction_indices. by apply maximisers_nonempty.
  - rewrite motor_direction_index. cbn [fmap list_fmap].
    by rewrite average_singleton.
Qed.

Lemma maximisers_lt (stimuli : list Qc) (i : nat) :
  i ∈ maximisers stimuli → (i < length stimuli)%nat.
Proof.
  intros (v & Hv & _)%elem_of_maximisers. by eapply lookup_lt_Some.
Qed.

Lemma sum_bounds (lo hi : Qc) (l : list Qc) :
  Forall (λ x, lo ≤ x ∧ x ≤ hi) l →
  of_int (Z.of_nat (length l)) * lo ≤ foldr Qcplus 0 l
  ∧ foldr Qcplus 0 l ≤ of_int (Z.of_nat (length l)) * hi.
Proof.
  induction 1 as [|x l [Hlo Hhi] _ [IHlo IHhi]].
  - cbn [foldr length]. replace (of_int (Z.of_nat 0)) with (0 : Qc) by compute_done.
    rewrite !Qcmult_0_l. split; apply Qcle_refl.
  - cbn [foldr length]. rewrite of_nat_succ. split.
    + replace ((of_int (Z.of_nat (length l)) + 1) * lo)
        with (lo + of_int (Z.of_nat (length l)) * lo) by ring.
      by apply Qcplus_le_compat.
    + replace ((of_int (Z.of_nat (length l)) + 1) * hi)
        with (hi + of_int (Z.of_nat (length l)) * hi) by ring.
      by apply Qcplus_le_compat.
Qed.

Lemma average_bounds (lo hi : Qc) (l : list Qc) :
  l ≠ [] → Forall (λ x, lo ≤ x ∧ x ≤ hi) l →
  lo ≤ average l ∧ average l ≤ hi.
Proof.
  intros Hne Hall. destruct (sum_bounds lo hi l Hall) as [Hlo Hhi].
  assert (of_int (Z.of_nat (length l)) ≠ 0) as Hk
    by (apply of_nat_nonzero; by destruct l).
  assert (0 < / of_int (Z.of_nat (length l))) as Hinv.
  { apply Qcinv_pos. destruct (Qcle_lt_or_eq 0 (of_int (Z.of_nat (length l))))
      as [Hlt|Heq]; [|done|by destruct Hk].
    unfold of_int. rewrite <-Z2Qc_inj_0. apply (proj1 (Z2Qc_inj_le _ _)). lia. }
  assert (∀ x, of_int (Z.of_nat (length l)) * x * / of_int (Z.of_nat (length l)) = x)
    as Hcancel by (intros x; by field).
  unfold average, Qcdiv. split.
  - rewrite <-(Hcancel lo) at 1.
    by apply (proj1 (Qcmult_le_mono_pos_r _ _ _ Hinv)).
  - apply Qcle_trans
      with (of_int (Z.of_nat (length l)) * hi * / of_int (Z.of_nat (length l))).
    + by apply (proj1 (Qcmult_le_mono_pos_r _ _ _ Hinv)).
    + rewrite Hcancel. apply Qcle_refl.
Qed.

Lemma offset_bounds (n i : nat) :
  (i < n)%nat →
  - ((of_int (Z.of_nat n) - 1) / 2) ≤ offset_from_centre n i
  ∧ offset_from_centre n i ≤ (of_int (Z.of_nat n) - 1) / 2.
Proof.
  intros Hi. unfold offset_from_centre.
  set (c := (of_int (Z.of_nat n) - 1) / 2).
  assert (c + c = of_int (Z.of_nat n) - 1) as Hcc by (unfold c; field; compute_done).
  split.
  - apply (Qcplus_le_mono_r _ _ c).
    replace (- c + c) with (0 : Qc) by ring.
    replace (of_int (Z.of_nat i) - c + c) with (of_int (Z.of_nat i)) by ring.
    unfold of_int. rewrite <-Z2Qc_inj_0. apply (proj1 (Z2Qc_inj_le _ _)). lia.
  - apply (Qcplus_le_mono_r _ _ c).
    replace (of_int (Z.of_nat i) - c + c) with (of_int (Z.of_nat i)) by ring.
    rewrite Hcc. unfold of_int. rewrite <-Z2Qc_inj_1, <-Z2Qc_inj_sub.
    apply (proj1 (Z2Qc_inj_le _ _)). lia.
Qed.

(** X10.  On [n >= 1] stimuli [motor_scheme] returns a direction between
    [-(n-1)/2] and [(n-1)/2]. *)
Theorem motor_scheme_in_range (stimuli : list Qc) :
  stimuli ≠ [] →
  ∃ d, motor_scheme stimuli = Ok d
       ∧ - ((of_int (Z.of_nat (length stimuli)) - 1) / 2) ≤ d
       ∧ d ≤ (of_int (Z.of_nat (length stimuli)) - 1) / 2.
Proof.
  intros Hne. eexists. split; [by apply motor_scheme_maximisers|].
  apply average_bounds.
  - intros Hnil%fmap_nil_inv. by apply (maximisers_nonempty stimuli).
  - apply Forall_fmap, Forall_forall. intros i Hi. simpl.
    by apply offset_bounds, maximisers_lt.
Qed.

Lemma motor_scheme_in_range_witness :
  stimuli_2 ≠ []
  ∧ ∃ d, motor_scheme stimuli_2 = Ok d
         ∧ - ((of_int (Z.of_nat (length stimuli_2)) - 1) / 2) ≤ d
         ∧ d ≤ (of_int (Z.of_nat (length stimuli_2)) - 1) / 2.
Proof.
  assert (stimuli_2 ≠ []) as H1 by done.
  split; [exact H1|]. exact (motor_scheme_in_range stimuli_2 H1).
Defined.

Lemma elem_of_maximisers_reverse (stimuli : list Qc) (j : nat) :
  j ∈ maximisers (reverse stimuli)
  ↔ ∃ i, j = (length stimuli - 1 - i)%nat ∧ i ∈ maximisers stimuli.
Proof.
  rewrite elem_of_maximisers. split.
  - intros (v & [Hv Hj]%reverse_lookup_Some & Hmax).
    exists (length stimuli - S j)%nat. split; [lia|].
    apply elem_of_maximisers. exists v. split; [done|].
    intros w Hw. by apply Hmax, elem_of_reverse.
  - intros (i & -> & (v & Hv & Hmax)%elem_of_maximisers).
    pose proof (lookup_lt_Some _ _ _ Hv) as Hi.
    exists v. split.
    + apply reverse_lookup_Some. split; [|lia].
      by replace (length stimuli - S (length stimuli - 1 - i))%nat with i by lia.
    + intros w Hw. apply Hmax. exact (proj1 (elem_of_reverse _ _) Hw).
Qed.

Lemma maximisers_reverse (stimuli : list Qc) :
  maximisers (reverse stimuli)
  ≡ₚ (λ i, length stimuli - 1 - i)%nat <$> maximisers stimuli.
Proof.
  apply NoDup_Permutation.
  - apply maximisers_NoDup.
  - apply NoDup_fmap_2_strong; [|apply maximisers_NoDup].
    intros x y Hx%maximisers_lt Hy%maximisers_lt. lia.
  - intros j. rewrite elem_of_maximisers_reverse, list_elem_of_fmap. done.
Qed.

Lemma sum_Permutation (l1 l2 : list Qc) :
  l1 ≡ₚ l2 → foldr Qcplus 0 l1 = foldr Qcplus 0 l2.
Proof.
  induction 1 as [|x l1 l2 _ IH|x y l|l1 l2 l3 _ IH1 _ IH2]; cbn [foldr].
  - done.
  - by rewrite IH.
  - ring.
  - by rewrite IH1.
Qed.

Lemma average_Permutation (l1 l2 : list Qc) :
  l1 ≡ₚ l2 → average l1 = average l2.
Proof.
  intros Hp. unfold average.
  by rewrite (sum_Permutation l1 l2 Hp), (Permutation_length Hp).
Qed.

Lemma average_opp {A : Type} (g : A → Qc) (l : list A) :
  average ((λ x, - g x) <$> l) = - average (g <$> l).
Proof.
  unfold average. rewrite !length_fmap.
  assert (foldr Qcplus 0 ((λ x, - g x) <$> l) = - foldr Qcplus 0 (g <$> l)) as ->.
  { induction l as [|x l IH]; [rewrite !fmap_nil; cbn [foldr]; ring|].
    rewrite !fmap_cons. cbn [foldr]. rewrite IH. ring. }
  unfold Qcdiv. ring.
Qed.

Lemma offset_mirror (n i : nat) :
  (i < n)%nat →
  offset_from_centre n (n - 1 - i) = - offset_from_centre n i.
Proof.
  intros Hi. unfold offset_from_centre, of_int.
  replace (Z.of_nat (n - 1 - i)) with (Z.of_nat n - 1 - Z.of_nat i)%Z by lia.
  rewrite !Z2Qc_inj_sub, Z2Qc_inj_1. field. compute_done.
Qed.

(** X11.  Mirroring the visual field mirrors the direction: on the
    reversed stimulus vector [motor_scheme] returns the opposite of what
    it returns on the vector itself (and raises when it raises). *)
Theorem motor_scheme_mirror (stimuli : list Qc) :
  motor_scheme (reverse stimuli) = (d ← motor_scheme stimuli; Ok (- d)).
Proof.
  destruct (decide (stimuli = [])) as [->|Hne]; [done|].
  assert (reverse stimuli ≠ []) as Hne'.
  { intros Hnil. apply Hne. apply (f_equal length) in Hnil.
    rewrite length_reverse in Hnil. by destruct stimuli. }
  rewrite !motor_scheme_maximisers by done.
  cbn [mbind result_mbind result_bind]. f_equal.
  rewrite length_reverse.
  rewrite (average_Permutation _ _
             (fmap_Permutation _ _ _ (maximisers_reverse stimuli))).
  rewrite <-list_fmap_compose, <-average_opp. f_equal.
  apply list_fmap_ext. intros k i Hi. simpl.
  apply offset_mirror, maximisers_lt. by eapply list_elem_of_lookup_2.
Qed.

(** ** Training, once more *)

Lemma tabulate_shape (L : nat) (f : nat → nat → Qc) :
  length (tabulate L f) = L ∧ Forall (λ row, length row = L) (tabulate L f).
Proof.
  unfold tabulate. split; [by rewrite length_fmap, length_seq|].
  apply Forall_fmap, Forall_forall. intros i _. simpl.
  by rewrite length_fmap, length_seq.
Qed.

Lemma wrap64_mul_comm (x y : Z) : wrap64 (x * y) = wrap64 (y * x).
Proof. by rewrite Z.mul_comm. Qed.

(** The sum that [train_hopfield] accumulates at entry [(i, j)]. *)
Lemma train_hopfield_sum (patterns : ndarray2) (nf : Qc) :
  wf_ndarray2 patterns →
  train_hopfield patterns nf
  = tabulate (shape1 patterns) (λ i j,
      (if decide (i = j) then 0
       else foldr Qcplus 0
              ((λ p : list Z, of_int (wrap64 (p !!! i * p !!! j)))
                 <$> rows patterns)
            / of_int (Z.of_nat (shape1 patterns))) * nf).
Proof.
  intros Hwf. rewrite train_hopfield_tabulate by done.
  apply tabulate_ext. intros i j _ _.
  destruct (decide (i = j)); [done|].
  by rewrite accumulate_sum, Qcplus_0_l.
Qed.

(** X13.  For every batch of int patterns, bipolar or not,
    [train_hopfield] returns a square matrix of dimension [shape[1]]
    that is symmetric and has a zero diagonal. *)
Theorem train_hopfield_symmetric (patterns : ndarray2) (nf : Qc) :
  wf_ndarray2 patterns →
  length (train_hopfield patterns nf) = shape1 patterns
  ∧ Forall (λ row, length row = shape1 patterns) (train_hopfield patterns nf)
  ∧ (∀ i j, entry (train_hopfield patterns nf) i j
            = entry (train_hopfield patterns nf) j i)
  ∧ (∀ i, (i < shape1 patterns)%nat →
       entry (train_hopfield patterns nf) i i = Some 0).
Proof.
  intros Hwf. rewrite train_hopfield_sum by done.
  split; [apply tabulate_shape|]. split; [apply tabulate_shape|]. split.
  - intros i j.
    destruct (decide ((i < shape1 patterns)%nat ∧ (j < shape1 patterns)%nat))
      as [[Hi Hj]|Hout].
    + rewrite !entry_tabulate by done. f_equal.
      destruct (decide (i = j)) as [Heq|Hne].
      { subst. by rewrite decide_True. }
      rewrite decide_False by congruence. do 3 f_equal.
      apply list_fmap_ext. intros _ p _. by rewrite wrap64_mul_comm.
    + rewrite !entry_tabulate_outside; [done|tauto|tauto].
  - intros i Hi. rewrite entry_tabulate by done. f_equal.
    rewrite decide_True by done. ring.
Qed.

Lemma train_hopfield_symmetric_witness :
  wf_ndarray2 (Ndarray2 2 [[3; -7]; [0; 5]]%Z)
  ∧ entry (train_hopfield (Ndarray2 2 [[3; -7]; [0; 5]]%Z) (frac 1 20)) 0 1
    = entry (train_hopfield (Ndarray2 2 [[3; -7]; [0; 5]]%Z) (frac 1 20)) 1 0.
Proof.
  assert (wf_ndarray2 (Ndarray2 2 [[3; -7]; [0; 5]]%Z)) as H1
    by (repeat constructor).
  split; [exact H1|].
  destruct (train_hopfield_symmetric (Ndarray2 2 [[3; -7]; [0; 5]]%Z)
              (frac 1 20) H1) as (_ & _ & Hsym & _).
  exact (Hsym 0%nat 1%nat).
Defined.

(** X14.  On a batch with no pattern (a [(0, L)] array)
    [train_hopfield] returns the [L × L] matrix of zeros. *)
Theorem train_hopfield_empty_batch (L : nat) (nf : Qc) :
  train_hopfield (Ndarray2 L []) nf = np_zeros L L.
Proof.
  rewrite train_hopfield_sum by constructor.
  rewrite np_zeros_tabulate. apply tabulate_ext. intros i j Hi Hj.
  cbn [rows shape1 fmap list_fmap foldr].
  destruct (decide (i = j)); unfold Qcdiv; ring.
Qed.

Lemma sum_app (l1 l2 : list Qc) :
  foldr Qcplus 0 (l1 ++ l2) = foldr Qcplus 0 l1 + foldr Qcplus 0 l2.
Proof.
  induction l1 as [|x l1 IH]; cbn [app foldr]; [ring|]. rewrite IH. ring.
Qed.

(** X15.  Hebbian training is additive: on the concatenation of two
    batches of patterns of length [L], every entry of the trained matrix
    is the sum of the entries trained on each batch. *)
Theorem train_hopfield_additive (L : nat) (ps1 ps2 : list (list Z)) (nf : Qc)
    (i j : nat) :
  Forall (λ p, length p = L) ps1 → Forall (λ p, length p = L) ps2 →
  (i < L)%nat → (j < L)%nat →
  ∃ w1 w2,
    entry (train_hopfield (Ndarray2 L ps1) nf) i j = Some w1
    ∧ entry (train_hopfield (Ndarray2 L ps2) nf) i j = Some w2
    ∧ entry (train_hopfield (Ndarray2 L (ps1 ++ ps2)) nf) i j = Some (w1 + w2).
Proof.
  intros H1 H2 Hi Hj.
  rewrite !train_hopfield_sum by (by try apply Forall_app).
  cbn [rows shape1]. rewrite !entry_tabulate by done.
  eexists _, _. split; [done|]. split; [done|]. f_equal.
  destruct (decide (i = j)); [ring|].
  rewrite fmap_app, sum_app. unfold Qcdiv. ring.
Qed.

Lemma train_hopfield_additive_witness :
  Forall (λ p : list Z, length p = 3%nat) [[1; -1; 1]%Z]
  ∧ Forall (λ p : list Z, length p = 3%nat) [[1; 1; -1]%Z]
  ∧ (1 < 3)%nat ∧ (2 < 3)%nat
  ∧ ∃ w1 w2,
      entry (train_hopfield (Ndarray2 3 [[1; -1; 1]%Z]) (frac 1 20)) 1 2 = Some w1
      ∧ entry (train_hopfield (Ndarray2 3 [[1; 1; -1]%Z]) (frac 1 20)) 1 2 = Some w2
      ∧ entry (train_hopfield (Ndarray2 3 ([[1; -1; 1]%Z] ++ [[1; 1; -1]%Z]))
                 (frac 1 20)) 1 2 = Some (w1 + w2).
Proof.
  assert (Forall (λ p : list Z, length p = 3%nat) [[1; -1; 1]%Z]) as H1
    by (repeat constructor).
  assert (Forall (λ p : list Z, length p = 3%nat) [[1; 1; -1]%Z]) as H2
    by (repeat constructor).
  assert (1 < 3)%nat as H3 by lia.
  assert (2 < 3)%nat as H4 by lia.
  split; [exact H1|]. split; [exact H2|]. split; [exact H3|]. split; [exact H4|].
  exact (train_hopfield_additive 3 [[1; -1; 1]%Z] [[1; 1; -1]%Z] (frac 1 20)
           1 2 H1 H2 H3 H4).
Defined.

(** X16.  The order of the patterns in the batch does not matter:
    [train_hopfield] returns the same matrix on every permutation of the
    batch. *)
Theorem train_hopfield_order_independent (L : nat) (ps1 ps2 : list (list Z))
    (nf : Qc) :
  Forall (λ p, length p = L) ps1 → ps1 ≡ₚ ps2 →
  train_hopfield (Ndarray2 L ps1) nf = train_hopfield (Ndarray2 L ps2) nf.
Proof.
  intros H1 Hperm.
  assert (Forall (λ p, length p = L) ps2) as H2 by (by rewrite <-Hperm).
  rewrite !train_hopfield_sum by done. cbn [rows shape1].
  apply tabulate_ext. intros i j _ _.
  destruct (decide (i = j)); [done|]. do 2 f_equal.
  apply sum_Permutation. by apply fmap_Permutation.
Qed.

Lemma train_hopfield_order_independent_witness :
  Forall (λ p : list Z, length p = 3%nat) [[1; -1; 1]; [1; 1; -1]]%Z
  ∧ [[1; -1; 1]; [1; 1; -1]]%Z ≡ₚ [[1; 1; -1]; [1; -1; 1]]%Z
  ∧ train_hopfield (Ndarray2 3 [[1; -1; 1]; [1; 1; -1]]%Z) (frac 1 20)
    = train_hopfield (Ndarray2 3 [[1; 1; -1]; [1; -1; 1]]%Z) (frac 1 20).
Proof.
  assert (Forall (λ p : list Z, length p = 3%nat) [[1; -1; 1]; [1; 1; -1]]%Z)
    as H1 by (repeat constructor).
  assert ([[1; -1; 1]; [1; 1; -1]]%Z ≡ₚ [[1; 1; -1]; [1; -1; 1]]%Z) as H2
    by apply Permutation_swap.
  split; [exact H1|]. split; [exact H2|].
  exact (train_hopfield_order_independent 3 _ _ (frac 1 20) H1 H2).
Defined.

(** ** Recall, once more *)

Lemma py_bind_raise {A B : Type} (m : py A) (f : A → py B) (h h' : heap)
    (e : pyerr) :
  m h = (Raise e, h') → (m ≫= f) h = (Raise e, h').
Proof. intros Hm. unfold mbind, py_mbind. by rewrite Hm. Qed.

Lemma hopfield_step_async_empty `{PyFloat F} (x : ref) (W : list (list F))
    (h : heap) :
  h !! x = Some [] → hopfield_step_async x W h = (Ok x, h).
Proof.
  intros Hx. unfold hopfield_step_async.
  rewrite (py_bind_ok _ _ h h 0%nat)
    by (unfold py_len; by rewrite (py_bind_ok _ _ h h []) by (unfold load; by rewrite Hx)).
  done.
Qed.

Lemma recall_loop_empty `{PyFloat F} (x : ref) (W : list (list F))
    (l : list nat) (h : heap) :
  h !! x = Some [] →
  py_for l (λ _ x', hopfield_step_async x' W) x h = (Ok x, h).
Proof.
  intros Hx. induction l as [|i l IH]; [done|]. cbn [py_for].
  by rewrite (py_bind_ok _ _ h h x) by (by apply hopfield_step_async_empty).
Qed.

(** X22.  When there is nothing to update, because the step count is
    zero or negative or because the query has no entry, [recall_async]
    returns a new array equal to the query, whatever the weight matrix
    and its shape. *)
Theorem recall_async_nothing_to_update `{PyFloat F} (pattern : ref)
    (W : list (list F)) (steps : Z) (xs : list Z) (h : heap) :
  h !! pattern = Some xs → (steps ≤ 0)%Z ∨ xs = [] →
  recall_async pattern W steps h
  = (Ok (fresh (dom h)), <[fresh (dom h) := xs]> h).
Proof.
  intros Hx Hnothing. rewrite recall_async_unfold, Hx.
  destruct Hnothing as [Hsteps| ->].
  - unfold py_range. by replace (Z.to_nat steps) with 0%nat by lia.
  - erewrite py_bind_ok; [done|].
    apply recall_loop_empty. by rewrite lookup_insert_eq.
Qed.

Lemma recall_async_nothing_to_update_witness :
  Demo.caller_heap !! 1%positive = Some Demo.query
  ∧ ((-3 ≤ 0)%Z ∨ Demo.query = [])
  ∧ recall_async 1 ([] : list (list float)) (-3) Demo.caller_heap
    = (Ok (fresh (dom Demo.caller_heap)),
       <[fresh (dom Demo.caller_heap) := Demo.query]> Demo.caller_heap).
Proof.
  assert (Demo.caller_heap !! 1%positive = Some Demo.query) as H1 by done.
  assert ((-3 ≤ 0)%Z ∨ Demo.query = []) as H2 by (left; lia).
  split; [exact H1|]. split; [exact H2|].
  exact (recall_async_nothing_to_update 1 ([] : list (list float)) (-3)
           Demo.query Demo.caller_heap H1 H2).
Defined.

Lemma first_update_raises `{PyFloat F} (x : ref) (W : list (list F))
    (xs : list Z) (h : heap) (e : pyerr) (l : list nat) :
  h !! x = Some xs → xs ≠ [] → neuron_update x W 0 h = (Raise e, h) →
  py_for (0%nat :: l) (λ _ x', hopfield_step_async x' W) x h = (Raise e, h).
Proof.
  intros Hx Hne Hraise. cbn [py_for]. apply py_bind_raise.
  unfold hopfield_step_async.
  rewrite (py_bind_ok _ _ h h (length xs))
    by (unfold py_len; by rewrite (py_bind_ok _ _ h h xs) by (unfold load; by rewrite Hx)).
  apply py_bind_raise. unfold py_range. rewrite Nat2Z.id.
  destruct xs as [|v xs]; [done|]. cbn [length seq py_for].
  by apply py_bind_raise.
Qed.

(** X21.  With at least one step and a non-empty query, [recall_async]
    raises at the first neuron when the weight matrix does not fit:
    [IndexError] when the matrix has no row, [ValueError] when its first
    row has another length than the query.  The caller's arrays are as
    before; only the copy has been added. *)
Theorem recall_async_shape_mismatch `{PyFloat F} (pattern : ref)
    (W : list (list F)) (steps : Z) (xs : list Z) (h : heap) :
  h !! pattern = Some xs → xs ≠ [] → (1 ≤ steps)%Z →
  (W = [] →
     recall_async pattern W steps h
     = (Raise IndexError, <[fresh (dom h) := xs]> h))
  ∧ (∀ row W', W = row :: W' → length row ≠ length xs →
     recall_async pattern W steps h
     = (Raise ValueError, <[fresh (dom h) := xs]> h)).
Proof.
  intros Hx Hne Hsteps.
  assert (∃ l, py_range steps = 0%nat :: l) as [l Hl].
  { unfold py_range. destruct (Z.to_nat steps) as [|n] eqn:Hn; [lia|].
    by eexists. }
  assert (∀ e, neuron_update (fresh (dom h)) W 0 (<[fresh (dom h) := xs]> h)
               = (Raise e, <[fresh (dom h) := xs]> h) →
          recall_async pattern W steps h = (Raise e, <[fresh (dom h) := xs]> h))
    as Hraise.
  { intros e He. rewrite recall_async_unfold, Hx, Hl.
    apply py_bind_raise.
    apply (first_update_raises _ W xs); [by rewrite lookup_insert_eq|done|done]. }
  split.
  - intros ->. by apply Hraise.
  - intros row W' -> Hlen. apply Hraise. unfold neuron_update.
    rewrite (py_bind_ok _ _ _ (<[fresh (dom h) := xs]> h) row) by done.
    rewrite (py_bind_ok _ _ _ (<[fresh (dom h) := xs]> h) xs)
      by (unfold load; by rewrite lookup_insert_eq).
    apply py_bind_raise. unfold lift, np_dot. by rewrite decide_False.
Qed.

Lemma recall_async_shape_mismatch_witness :
  Demo.caller_heap !! 1%positive = Some Demo.query ∧ Demo.query ≠ []
  ∧ (1 ≤ 50)%Z
  ∧ recall_async 1 ([] : list (list float)) 50 Demo.caller_heap
    = (Raise IndexError,
       <[fresh (dom Demo.caller_heap) := Demo.query]> Demo.caller_heap)
  ∧ recall_async 1 Demo.W_pair64 50 Demo.caller_heap
    = (Raise ValueError,
       <[fresh (dom Demo.caller_heap) := Demo.query]> Demo.caller_heap).
Proof.
  assert (Demo.caller_heap !! 1%positive = Some Demo.query) as H1 by done.
  assert (Demo.query ≠ []) as H2 by done.
  assert (1 ≤ 50)%Z as H3 by lia.
  split; [exact H1|]. split; [exact H2|]. split; [exact H3|]. split.
  - exact (proj1 (recall_async_shape_mismatch 1 ([] : list (list float)) 50
                    Demo.query Demo.caller_heap H1 H2 H3) eq_refl).
  - apply (proj2 (recall_async_shape_mismatch 1 Demo.W_pair64 50 Demo.query
                    Demo.caller_heap H1 H2 H3)
             [float_of_int 0; float_of_int 1]
             [[float_of_int 1; float_of_int 0]]); [done|].
    simpl. lia.
Defined.







(** *** Symmetries of the sweep *)

Lemma sign_pos (q : Qc) : 0 < q → sign q = 1%Z.
Proof. intros Hq. unfold sign. exact_arith. by rewrite decide_True. Qed.

Lemma sign_neg (q : Qc) : q < 0 → sign q = (-1)%Z.
Proof.
  intros Hq. unfold sign. exact_arith.
  rewrite decide_False by (by apply Qcle_not_lt, Qclt_le_weak).
  by rewrite decide_True.
Qed.

Lemma sign_zero : sign 0 = 0%Z.
Proof. done. Qed.

Lemma Qcopp_neg_pos (q : Qc) : q < 0 → 0 < - q.
Proof.
  intros Hq. pose proof (Qcopp_lt_swap q 0 Hq) as H.
  by replace (- 0) with (0 : Qc) in H by ring.
Qed.

Lemma Qcopp_pos_neg (q : Qc) : 0 < q → - q < 0.
Proof.
  intros Hq. pose proof (Qcopp_lt_swap 0 q Hq) as H.
  by replace (- 0) with (0 : Qc) in H by ring.
Qed.

Lemma sign_opp (q : Qc) : sign (- q) = (- sign q)%Z.
Proof.
  destruct (Qc_dec q 0) as [[Hneg|Hpos]| ->].
  - by rewrite (sign_neg q), (sign_pos (- q)) by (by try apply Qcopp_neg_pos).
  - by rewrite (sign_pos q), (sign_neg (- q)) by (by try apply Qcopp_pos_neg).
  - replace (- 0) with (0 : Qc) by ring. by rewrite sign_zero.
Qed.

Lemma dot_foldr (row : list Qc) (x : list Z) :
  dot row x = foldr Qcplus 0 (zip_with (λ w v, w * of_int v) row x).
Proof. unfold dot. exact_arith. apply py_sum_foldr. Qed.

Lemma dot_opp (row : list Qc) (x : list Z) :
  dot row (Z.opp <$> x) = - dot row x.
Proof.
  rewrite !dot_foldr. revert x. induction row as [|w row IH]; intros x.
  - cbn [zip_with foldr]. ring.
  - destruct x as [|v x]; [rewrite fmap_nil; cbn [zip_with foldr]; ring|].
    rewrite fmap_cons. cbn [zip_with foldr]. rewrite IH.
    unfold of_int. rewrite Z2Qc_inj_opp. ring.
Qed.

Lemma neuron_opp (W : matrix) (i : nat) (x : list Z) :
  neuron W i (Z.opp <$> x) = (- neuron W i x)%Z.
Proof. unfold neuron. by rewrite dot_opp, sign_opp. Qed.

Lemma sweep_from_opp (W : matrix) (dn todo : list Z) :
  sweep_from W (Z.opp <$> dn) (Z.opp <$> todo)
  = Z.opp <$> sweep_from W dn todo.
Proof.
  revert dn. induction todo as [|t rest IH]; intros dn; [done|].
  rewrite fmap_cons. cbn [sweep_from].
  rewrite <-(fmap_cons Z.opp t rest), <-fmap_app, length_fmap, neuron_opp.
  rewrite <-IH. by rewrite fmap_app.
Qed.

Lemma sweep_opp (W : matrix) (x : list Z) :
  sweep W (Z.opp <$> x) = Z.opp <$> sweep W x.
Proof. unfold sweep. by rewrite <-sweep_from_opp. Qed.

(** X18.  Recall is odd: from the entrywise opposite of a query,
    [recall_async] returns the entrywise opposite of what it returns from
    the query. *)
Theorem recall_async_odd (W : matrix) (p1 p2 : ref) (steps : Z)
    (xs : list Z) (h : heap) :
  h !! p1 = Some xs → h !! p2 = Some (Z.opp <$> xs) →
  length W = length xs → Forall (λ row, length row = length xs) W →
  ∃ ys,
    recall_async p1 W steps h = (Ok (fresh (dom h)), <[fresh (dom h) := ys]> h)
    ∧ recall_async p2 W steps h
      = (Ok (fresh (dom h)), <[fresh (dom h) := Z.opp <$> ys]> h).
Proof.
  intros H1 H2 HW Hrows. eexists. split; [by apply recall_async_ok|].
  rewrite (recall_async_ok p2 W steps (Z.opp <$> xs))
    by (by rewrite ?length_fmap).
  do 2 f_equal. induction (Z.to_nat steps) as [|n IH]; [done|].
  by rewrite !Nat.iter_succ, IH, sweep_opp.
Qed.

Lemma recall_async_odd_witness :
  (<[2%positive := [-1; 1; -1]%Z]> Demo.caller_heap) !! 1%positive
  = Some Demo.query
  ∧ (<[2%positive := [-1; 1; -1]%Z]> Demo.caller_heap) !! 2%positive
    = Some (Z.opp <$> Demo.query)
  ∧ length Demo.W = length Demo.query
  ∧ Forall (λ row, length row = length Demo.query) Demo.W
  ∧ ∃ ys,
      recall_async 1 Demo.W 50 (<[2%positive := [-1; 1; -1]%Z]> Demo.caller_heap)
      = (Ok (fresh (dom (<[2%positive := [-1; 1; -1]%Z]> Demo.caller_heap))),
         <[fresh (dom (<[2%positive := [-1; 1; -1]%Z]> Demo.caller_heap)) := ys]>
           (<[2%positive := [-1; 1; -1]%Z]> Demo.caller_heap))
      ∧ recall_async 2 Demo.W 50 (<[2%positive := [-1; 1; -1]%Z]> Demo.caller_heap)
        = (Ok (fresh (dom (<[2%positive := [-1; 1; -1]%Z]> Demo.caller_heap))),
           <[fresh (dom (<[2%positive := [-1; 1; -1]%Z]> Demo.caller_heap))
             := Z.opp <$> ys]>
             (<[2%positive := [-1; 1; -1]%Z]> Demo.caller_heap)).
Proof.
  assert ((<[2%positive := [-1; 1; -1]%Z]> Demo.caller_heap) !! 1%positive
          = Some Demo.query) as H1 by done.
  assert ((<[2%positive := [-1; 1; -1]%Z]> Demo.caller_heap) !! 2%positive
          = Some (Z.opp <$> Demo.query)) as H2 by done.
  assert (length Demo.W = length Demo.query) as H3 by (vm_compute; reflexivity).
  assert (Forall (λ row, length row = length Demo.query) Demo.W) as H4
    by (vm_compute; repeat constructor).
  split; [exact H1|]. split; [exact H2|]. split; [exact H3|]. split; [exact H4|].
  exact (recall_async_odd Demo.W 1 2 50 Demo.query _ H1 H2 H3 H4).
Defined.

(** *** One stored pattern *)








Section one_pattern.
Context (p : list Z) (nf : Qc).
Context (Hp : bipolar p) (Hnf : 0 < nf).

Local Abbreviation W1 := (train_hopfield (Ndarray2 (length p) [p]) nf).





End one_pattern.






